(** * jackett-sync: the reconciliation engine of [services/service.ts]

    A shallow embedding of the abstract class [Service] (category policy,
    differ, equivalence check, the requests of [sync]) and of the driver in
    [main.ts], followed by the properties of the engine.

    Arrays of numbers are lists of integers.  The methods that only read
    are functions; the methods that mutate [this.indexers], print or send
    requests run in a world that holds the instance, the console and the
    requests sent.  The rule table [Config.indexSpecificRules] and the
    identity comparison [Indexer.compare] are parameters. *)

From Stdlib Require Import ZArith Bool Lia.
From Stdlib Require Strings.String.
From stdpp Require Import base tactics option list.

(** ** Data model *)

(** Modelled from the spec: the enum [Services] of [models/indexSpecificRule]
    is not part of the sources at hand.  A rule selector is one of [ALL] or
    the name of a consumer; [main.ts] builds the four consumers below. *)
Inductive Services : Set := ALL | SONARR | RADARR | LIDARR | READARR.

#[global] Instance Services_eq_dec : EqDecision Services.
Proof. solve_decision. Defined.

(** Modelled from the spec: the interface [IndexSpecificRule]
    ([targetSelector], [indexerId], optional [category] and
    [animeCategory]); an absent field is [None]. *)
Module IndexSpecificRule.
Record t : Set := mk
  { service : Services;
    indexerId : Z;
    category : option Z;
    animeCategory : option Z }.
End IndexSpecificRule.

(** Modelled from the spec: a source indexer, [models/jackettIndexer]. *)
Module JackettIndexer.
Record t : Set := mk
  { id : Z;
    categories : list Z }.
End JackettIndexer.

(** Modelled from the spec: an indexer as a consumer holds it,
    [models/indexer].  [id] may be undefined ([checkDifferences] filters the
    ids with [notEmpty]) and [appId] is a [number | undefined] in
    [Service.update]. *)
Module Indexer.
Record t : Set := mk
  { id : option Z;
    appId : option Z;
    categories : list Z }.

Definition withCategories (i : t) (cs : list Z) : t :=
  {| id := id i; appId := appId i; categories := cs |}.
End Indexer.

(** The fields of a [Service] instance ([this]). *)
Module Service.
Record t : Set := mk
  { serviceName : Services;
    categories : list Z;
    seeds : Z;
    indexers : list Indexer.t }.

Definition withIndexers (s : t) (ixs : list Indexer.t) : t :=
  {| serviceName := serviceName s; categories := categories s;
     seeds := seeds s; indexers := ixs |}.
End Service.

(** ** Array primitives of the host language *)

(** [Array.prototype.includes] on an array of numbers. *)
Definition includes (l : list Z) (x : Z) : bool := existsb (Z.eqb x) l.

(** [Array.prototype.indexOf]: the first index holding [x], [-1] if none. *)
Fixpoint indexOf (l : list Z) (x : Z) : Z :=
  match l with
  | [] => (-1)%Z
  | y :: l' =>
      if (y =? x)%Z then 0%Z
      else let r := indexOf l' x in
           if (r <? 0)%Z then (-1)%Z else (r + 1)%Z
  end.

(** [Array.prototype.splice(start, deleteCount)], the array it leaves: a
    negative [start] counts from the end, and [start] is clamped to the
    bounds of the array. *)
Definition splice (l : list Z) (start : Z) (deleteCount : nat) : list Z :=
  let len := Z.of_nat (length l) in
  let from :=
    if (start <? 0)%Z then Z.max (len + start) 0 else Z.min start len in
  take (Z.to_nat from) l ++ drop (Z.to_nat from + deleteCount) l.

(** [l.push(x)]. *)
Definition push (l : list Z) (x : Z) : list Z := l ++ [x].

(** ** Category policy: the override rules *)

(** The guard shared by the three walks over [Config.indexSpecificRules]:
    the rule is scoped to [ALL] or to this service, and names the indexer. *)
Definition ruleSelects (this : Service.t) (indexer : JackettIndexer.t)
    (r : IndexSpecificRule.t) : bool :=
  (bool_decide (IndexSpecificRule.service r = ALL)
   || bool_decide (IndexSpecificRule.service r = Service.serviceName this))
  && bool_decide (JackettIndexer.id indexer = IndexSpecificRule.indexerId r).

(** [if (c != null && !l.includes(c)) l.push(c)] *)
Definition pushIfAbsent (l : list Z) (c : option Z) : list Z :=
  match c with
  | Some c => if negb (includes l c) then push l c else l
  | None => l
  end.

(** [if (c != null && l.includes(c)) l.splice(l.indexOf(c), 1)] *)
Definition spliceIfPresent (l : list Z) (c : option Z) : list Z :=
  match c with
  | Some c => if includes l c then splice l (indexOf l c) 1 else l
  | None => l
  end.

(** One turn of the [forEach] of [indexerSpecificConfiguration], on the pair
    of arrays it mutates. *)
Definition applyRule (this : Service.t) (indexer : JackettIndexer.t)
    (st : list Z * list Z) (r : IndexSpecificRule.t) : list Z * list Z :=
  if ruleSelects this indexer r then
    (pushIfAbsent st.1 (IndexSpecificRule.category r),
     pushIfAbsent st.2 (IndexSpecificRule.animeCategory r))
  else st.

(** One turn of the [forEach] of [undoIndexerSpecificConfiguration]. *)
Definition undoRule (this : Service.t) (indexer : JackettIndexer.t)
    (st : list Z * list Z) (r : IndexSpecificRule.t) : list Z * list Z :=
  if ruleSelects this indexer r then
    (spliceIfPresent st.1 (IndexSpecificRule.category r),
     spliceIfPresent st.2 (IndexSpecificRule.animeCategory r))
  else st.

(** [indexerSpecificConfiguration]: the two arrays after the walk over the
    rule table [rules] (the static [Config.indexSpecificRules]). *)
Definition indexerSpecificConfiguration (rules : list IndexSpecificRule.t)
    (this : Service.t) (indexer : JackettIndexer.t)
    (supportedCategories animeSupportedCategories : list Z)
    : list Z * list Z :=
  foldl (applyRule this indexer)
        (supportedCategories, animeSupportedCategories) rules.

(** [undoIndexerSpecificConfiguration]. *)
Definition undoIndexerSpecificConfiguration (rules : list IndexSpecificRule.t)
    (this : Service.t) (indexer : JackettIndexer.t)
    (supportedCategories animeSupportedCategories : list Z)
    : list Z * list Z :=
  foldl (undoRule this indexer)
        (supportedCategories, animeSupportedCategories) rules.

(** [doesIndexerSpecificRuleApply]: [findIndex] does not return [-1]. *)
Definition doesIndexerSpecificRuleApply (rules : list IndexSpecificRule.t)
    (this : Service.t) (indexer : JackettIndexer.t) : bool :=
  existsb (ruleSelects this indexer) rules.

(** ** Console output *)

(** One constructor per [console] call of [service.ts] and [main.ts], with
    the values the line interpolates. *)
Inductive LogLine : Set :=
  | SkippingAdd (service : Services) (id : Z)
  | SkippingUpdate (service : Services) (id : option Z)
  | NotInJackett (service : Services) (id : Z)
  | AddedSuccessfully (service : Services)
  | UpdatedSuccessfully (service : Services)
  | UnknownResponseStatus (service : Services)
  | SomethingWentWrong (service : Services) (status : Z)
  | UnexpectedErrorDuringRequest (service : Services)
  | CouldntGetIndexes (service : Services) (status : Z)
  | CouldNotBeParsed (service : Services)
  | JackettCouldntGetIndexers
  | TestedUrlAndApiKey (service : Services)
  | StartingSync (service : Services)
  | SyncIsDone (service : Services)
  | Failed (service : Services)
  | SyncFailed (service : Services).

(** ** Requests *)

(** The requests [add] and [update] send: [axios.post] of the body built
    from [indexer], and [axios.put] of that body to the record [appId]. *)
Inductive Request : Set :=
  | Post (indexer : JackettIndexer.t)
  | Put (appId : option Z) (indexer : JackettIndexer.t).

Definition requestIndexer (r : Request) : JackettIndexer.t :=
  match r with Post indexer => indexer | Put _ indexer => indexer end.

(** ** The state a method of [Service] runs in *)

(** [self] is the instance ([this]), [console] the lines printed so far
    and [sent] the requests sent so far. *)
Record World : Set := mkWorld
  { self : Service.t;
    console : list LogLine;
    sent : list Request }.

(** A method body: it reads and mutates the world, and [None] stands for
    the [TypeError] of dereferencing [undefined] after a [find(...)!]. *)
Definition M (A : Type) : Type := World -> option (A * World).

Definition ret {A} (a : A) : M A := fun w => Some (a, w).

Definition bind {A B} (m : M A) (f : A -> M B) : M B :=
  fun w => match m w with
           | Some (a, w') => f a w'
           | None => None
           end.

Notation "x <- m ;; k" := (bind m (fun x => k))
  (at level 100, m at next level, right associativity).
Notation "m ;;; k" := (bind m (fun _ => k))
  (at level 100, right associativity).

(** [o!] followed by a property access. *)
Definition deref {A} (o : option A) : M A :=
  fun w => match o with Some a => Some (a, w) | None => None end.

Definition getThis : M Service.t := fun w => Some (self w, w).

Definition log (l : LogLine) : M unit :=
  fun w => Some (tt, {| self := self w; console := console w ++ [l];
                        sent := sent w |}).

(** [current.categories] becomes [cs], where [current] is the object held
    at index [k] of [this.indexers]. *)
Definition setCategories (k : nat) (cs : list Z) : M unit :=
  fun w =>
    Some (tt,
          {| self := Service.withIndexers (self w)
               (alter (fun i => Indexer.withCategories i cs) k
                      (Service.indexers (self w)));
             console := console w; sent := sent w |}).

(** [l.map(f)] for a callback with effects, in index order. *)
Fixpoint mapM {A B} (f : A -> M B) (l : list A) : M (list B) :=
  match l with
  | [] => ret []
  | x :: l' => y <- f x ;; ys <- mapM f l' ;; ret (y :: ys)
  end.

(** [l.forEach(f)]. *)
Fixpoint forEachM {A} (f : A -> M unit) (l : list A) : M unit :=
  match l with
  | [] => ret tt
  | x :: l' => f x ;;; forEachM f l'
  end.

(** Modelled from the spec: [notEmpty] of [helper] is not part of the
    sources at hand.  The differ keeps "only those that pass":
    [.filter(notEmpty)] drops the [undefined] results of a callback and
    keeps the defined ones. *)
Definition filterNotEmpty {A} (l : list (option A)) : list A := omap id l.

(** Modelled from the spec: [arrayEquals] of [helper] is not part of the
    sources at hand.  Two category collections are equivalent iff they
    contain the same elements, regardless of insertion order. *)
Definition arrayEquals (a b : list Z) : bool :=
  forallb (includes b) a && forallb (includes a) b.

(** The result of [checkDifferences]. *)
Module Differences.
Record t : Set := mk
  { add : list JackettIndexer.t;
    update : list JackettIndexer.t }.
End Differences.

(** ** Promises *)

(** A rejection value [error], as the [catch] handlers look at it.
    [HttpError status] and [HttpErrorNullBody status] are axios errors that
    carry the response of the server ([error && error.response] holds);
    [error.config] is the configuration of the request and
    [error.response.config.data] the request body axios serialised, which
    [JSON.parse] reads back.  For [HttpErrorNullBody] the body of the
    response, [error.response.data], is [null]: indexing it with [[0]]
    throws a [TypeError].  [OtherError] is an error without a response (the
    request did not get through, or a handler threw). *)
Inductive Failure : Set :=
  | HttpError (status : Z)
  | HttpErrorNullBody (status : Z)
  | OtherError.

(** How a promise settles. *)
Inductive Outcome (A : Type) : Type :=
  | Resolved (a : A)
  | Rejected (error : Failure).
Arguments Resolved {A} a.
Arguments Rejected {A} error.

(** An axios response: [status], and whether [data] is an object whose
    fields ([name], [version]) can be read. *)
Record Response : Set := mkResponse
  { status : Z;
    hasData : bool }.

(** What the consumer application answers: to the GET of the system url, to
    the GET of the indexer url (each entry of [response.data] with the
    indexer [mapToIndexer] makes of it, [None] when it throws), and to each
    POST and PUT. *)
Record Net : Type := mkNet
  { systemReply : Outcome Response;
    indexerReply : Outcome (list (option Indexer.t));
    requestReply : Request -> Outcome Response }.

(** The body of an [async] function, or a call returning a promise: it
    runs in the world and yields the way its promise settles. *)
Definition P (A : Type) : Type := World -> Outcome A * World.

Definition resolve {A} (a : A) : P A := fun w => (Resolved a, w).

Definition reject {A} (error : Failure) : P A := fun w => (Rejected error, w).

(** [const a = await p; k(a)], and [p.then(k)]: a rejection skips [k]. *)
Definition await {A B} (p : P A) (k : A -> P B) : P B :=
  fun w => match p w with
           | (Resolved a, w') => k a w'
           | (Rejected error, w') => (Rejected error, w')
           end.

(** [try { body } catch (error) { handler }], and [body.catch(handler)]. *)
Definition tryCatch {A} (body : P A) (handler : Failure -> P A) : P A :=
  fun w => match body w with
           | (Resolved a, w') => (Resolved a, w')
           | (Rejected error, w') => handler error w'
           end.

(** Synchronous code inside an [async] body: its [TypeError] rejects. *)
Definition liftM {A} (m : M A) : P A :=
  fun w => match m w with
           | Some (a, w') => (Resolved a, w')
           | None => (Rejected OtherError, w)
           end.

(** [l.map(async (x) => f(x))]: every callback is started, one after the
    other; the list holds the way each promise settles.  What a handler
    prints is put on the console where its callback starts: the order in
    which the replies arrive is not part of the model. *)
Fixpoint startAll {A B} (f : A -> P B) (l : list A)
    : World -> list (Outcome B) * World :=
  fun w => match l with
           | [] => ([], w)
           | x :: l' =>
               let r := f x w in
               let rs := startAll f l' r.2 in
               (r.1 :: rs.1, rs.2)
           end.

(** [Promise.all]: rejected as soon as one promise is. *)
Fixpoint promiseAll {A} (l : list (Outcome A)) : Outcome (list A) :=
  match l with
  | [] => Resolved []
  | Rejected error :: _ => Rejected error
  | Resolved a :: l' =>
      match promiseAll l' with
      | Resolved l'' => Resolved (a :: l'')
      | Rejected error => Rejected error
      end
  end.

Section Engine.

(** [current.compare(indexer)]: the identity comparison of the class
    [Indexer], which each consumer's field mapping defines. *)
Variable compare : Indexer.t -> JackettIndexer.t -> bool.

(** [Config.indexSpecificRules], read-only for the run. *)
Variable rules : list IndexSpecificRule.t.

(** [shouldAdd] *)
Definition shouldAdd (this : Service.t) (indexer : JackettIndexer.t) : bool :=
  existsb (includes (Service.categories this))
          (JackettIndexer.categories indexer)
  || doesIndexerSpecificRuleApply rules this indexer.

(** [containsAllWantedCategories].  [current] is the object at index [k] of
    [this.indexers]; the reversal works on its [categories] array itself and
    on a fresh empty array. *)
Definition containsAllWantedCategories (k : nat) (indexer : JackettIndexer.t)
    : M bool :=
  this <- getThis ;;
  current <- deref (Service.indexers this !! k) ;;
  let availableCategories :=
    List.filter (includes (JackettIndexer.categories indexer))
                (Service.categories this) in
  let undone :=
    undoIndexerSpecificConfiguration rules this indexer
      (Indexer.categories current) [] in
  setCategories k undone.1 ;;;
  ret (arrayEquals undone.1 availableCategories).

(** [shouldUpdate]: [||] skips its right operand when the left one holds. *)
Definition shouldUpdate (k : nat) (indexer : JackettIndexer.t) : M bool :=
  this <- getThis ;;
  current <- deref (Service.indexers this !! k) ;;
  if negb (compare current indexer) then ret true
  else b <- containsAllWantedCategories k indexer ;; ret (negb b).

(** [jackettIndexers.find((indexer) => indexer.id == indexersId)] *)
Definition findJackett (jackettIndexers : list JackettIndexer.t)
    (indexersId : Z) : option JackettIndexer.t :=
  List.find (fun indexer => (JackettIndexer.id indexer =? indexersId)%Z)
            jackettIndexers.

(** [this.indexers.find((indexer) => indexer.id == indexersId)]: the index
    of the object found, and its current value. *)
Definition findExisting (indexers : list Indexer.t) (indexersId : Z)
    : option (nat * Indexer.t) :=
  list_find (fun indexer => Indexer.id indexer = Some indexersId) indexers.

Definition idList (jackettIndexers : list JackettIndexer.t) : list Z :=
  JackettIndexer.id <$> jackettIndexers.

Definition serviceIdList (this : Service.t) : list Z :=
  filterNotEmpty (Indexer.id <$> Service.indexers this).

(** The ids of the source that the consumer does not hold. *)
Definition diff (jackettIndexers : list JackettIndexer.t) (this : Service.t)
    : list Z :=
  List.filter (fun id => negb (includes (serviceIdList this) id))
              (idList jackettIndexers).

(** The ids of the source that the consumer holds. *)
Definition same (jackettIndexers : list JackettIndexer.t) (this : Service.t)
    : list Z :=
  List.filter (fun id => includes (serviceIdList this) id)
              (idList jackettIndexers).

(** The ids of the consumer that the source does not hold. *)
Definition notInJackett (jackettIndexers : list JackettIndexer.t)
    (this : Service.t) : list Z :=
  List.filter (fun id => negb (includes (idList jackettIndexers) id))
              (serviceIdList this).

(** The callback of [diff.map]. *)
Definition addEntry (jackettIndexers : list JackettIndexer.t)
    (indexersId : Z) : M (option JackettIndexer.t) :=
  this <- getThis ;;
  indexer <- deref (findJackett jackettIndexers indexersId) ;;
  if shouldAdd this indexer then ret (Some indexer)
  else log (SkippingAdd (Service.serviceName this)
                        (JackettIndexer.id indexer)) ;;;
       ret None.

(** The callback of [same.map]. *)
Definition updateEntry (jackettIndexers : list JackettIndexer.t)
    (indexersId : Z) : M (option JackettIndexer.t) :=
  this <- getThis ;;
  jacketIndexer <- deref (findJackett jackettIndexers indexersId) ;;
  existing <- deref (findExisting (Service.indexers this) indexersId) ;;
  b <- shouldUpdate existing.1 jacketIndexer ;;
  if b then ret (Some jacketIndexer)
  else log (SkippingUpdate (Service.serviceName this)
                           (Indexer.id existing.2)) ;;;
       ret None.

(** [checkDifferences] *)
Definition checkDifferences (jackettIndexers : list JackettIndexer.t)
    : M Differences.t :=
  this <- getThis ;;
  let diff := diff jackettIndexers this in
  added <- mapM (addEntry jackettIndexers) diff ;;
  let shouldBeAddedIndexers := filterNotEmpty added in
  let same := same jackettIndexers this in
  updated <- mapM (updateEntry jackettIndexers) same ;;
  let shouldBeUpdatedIndexers := filterNotEmpty updated in
  let notInJackett := notInJackett jackettIndexers this in
  forEachM (fun indexer => log (NotInJackett (Service.serviceName this) indexer))
           notInJackett ;;;
  ret {| Differences.add := shouldBeAddedIndexers;
         Differences.update := shouldBeUpdatedIndexers |}.

(** The consumer application this service talks to. *)
Variable net : Net.

(** A request leaves: it is recorded, and its promise settles as the
    application answers. *)
Definition send (r : Request) : P Response :=
  fun w => (requestReply net r,
            {| self := self w; console := console w; sent := sent w ++ [r] |}).

(** [validate] *)
Definition validate : P Response := fun w => (systemReply net, w).

(** [add] *)
Definition add (indexer : JackettIndexer.t) : P Response :=
  send (Post indexer).

(** [update] *)
Definition update (appId : option Z) (indexer : JackettIndexer.t)
    : P Response :=
  send (Put appId indexer).

(** [handleRequest]: the [then] handler reads [response.data.name], and the
    [catch] handler also receives what the [then] handler throws.  The
    [catch] handler evaluates
    [(axiosError.response?.data as any)[0]?.errorMessage] before it prints:
    on a [null] body that throws, nothing is printed and the promise
    [handleRequest] returns is rejected with the [TypeError]. *)
Definition handleRequest (axiosResponsePromise : P Response) : P unit :=
  tryCatch
    (await axiosResponsePromise (fun response =>
       await (liftM getThis) (fun this =>
         if negb (hasData response) then reject OtherError
         else if (status response =? 201)%Z then
           liftM (log (AddedSuccessfully (Service.serviceName this)))
         else if (status response =? 202)%Z then
           liftM (log (UpdatedSuccessfully (Service.serviceName this)))
         else liftM (log (UnknownResponseStatus (Service.serviceName this))))))
    (fun error =>
       await (liftM getThis) (fun this =>
         match error with
         | HttpError status =>
             liftM (log (SomethingWentWrong (Service.serviceName this) status))
         | HttpErrorNullBody _ => reject OtherError
         | OtherError =>
             liftM (log (UnexpectedErrorDuringRequest
                           (Service.serviceName this)))
         end)).

(** [mapToIndexerWithCatch], on an entry with what [mapToIndexer] makes of
    it. *)
Definition mapToIndexerWithCatch (entry : option Indexer.t)
    : M (option Indexer.t) :=
  match entry with
  | Some indexer => ret (Some indexer)
  | None => this <- getThis ;;
            log (CouldNotBeParsed (Service.serviceName this)) ;;;
            ret None
  end.

(** [handleIndexersRequest]: the [catch] handler prints and throws the
    error again; it passes the body of the response to [JSON.stringify],
    which accepts [null]. *)
Definition handleIndexersRequest : P (list Indexer.t) :=
  tryCatch
    (await (fun w => (indexerReply net, w)) (fun entries =>
       await (liftM (mapM mapToIndexerWithCatch entries)) (fun indexers =>
         resolve (List.filter
                    (fun indexer => bool_decide (Indexer.id indexer ≠ None))
                    (filterNotEmpty indexers)))))
    (fun error =>
       await (liftM getThis) (fun this =>
         await (liftM (log (match error with
                            | HttpError status | HttpErrorNullBody status =>
                                CouldntGetIndexes (Service.serviceName this)
                                                  status
                            | OtherError =>
                                UnexpectedErrorDuringRequest
                                  (Service.serviceName this)
                            end)))
               (fun _ => reject error))).

(** [getIndexers]: [this.indexers] is assigned once the request settled. *)
Definition getIndexers : P unit :=
  await handleIndexersRequest (fun indexers w =>
    (Resolved tt,
     {| self := Service.withIndexers (self w) indexers;
        console := console w; sent := sent w |})).

(** The callback of [add.map] in [sync]. *)
Definition addCallback (indexer : JackettIndexer.t) : P unit :=
  handleRequest (add indexer).

(** [this.indexers.find((existingIndexer) => existingIndexer.id === indexer.id)] *)
Definition findById (indexers : list Indexer.t) (indexer : JackettIndexer.t)
    : option Indexer.t :=
  List.find
    (fun existingIndexer =>
       bool_decide (Indexer.id existingIndexer
                    = Some (JackettIndexer.id indexer)))
    indexers.

(** The callback of [update.map] in [sync]. *)
Definition updateCallback (indexer : JackettIndexer.t) : P unit :=
  await (liftM (this <- getThis ;;
                existing <- deref (findById (Service.indexers this) indexer) ;;
                ret (Indexer.appId existing)))
        (fun appId => handleRequest (update appId indexer)).

(** [sync]: both batches are started before either is awaited; the array
    [Promise.all] resolves to is truthy, so [&&] goes on to its right
    operand. *)
Definition sync (jackettIndexers : list JackettIndexer.t) : P (list unit) :=
  await (liftM (checkDifferences jackettIndexers)) (fun d w =>
    let addPromises := startAll addCallback (Differences.add d) w in
    let updatePromises :=
      startAll updateCallback (Differences.update d) addPromises.2 in
    (match promiseAll addPromises.1 with
     | Resolved _ => promiseAll updatePromises.1
     | Rejected error => Rejected error
     end,
     updatePromises.2)).

End Engine.

(** ** The driver, [main.ts] *)

Module Main.

(** [sync(service, jackettIndexers)] *)
Definition sync (compare : Indexer.t -> JackettIndexer.t -> bool)
    (rules : list IndexSpecificRule.t) (net : Net)
    (jackettIndexers : list JackettIndexer.t) : P unit :=
  tryCatch
    (await (validate net) (fun response =>
     await (liftM getThis) (fun service =>
     await (if hasData response
            then liftM (log (TestedUrlAndApiKey (Service.serviceName service)))
            else reject OtherError) (fun _ =>
     await (getIndexers net) (fun _ =>
     await (liftM (log (StartingSync (Service.serviceName service)))) (fun _ =>
     await (sync compare rules net jackettIndexers) (fun _ =>
     liftM (log (SyncIsDone (Service.serviceName service))))))))))
    (fun error =>
       await (liftM getThis) (fun service =>
         liftM (log (Failed (Service.serviceName service))))).

(** A freshly constructed service: nothing printed, nothing sent. *)
Definition fresh (service : Service.t) : World :=
  {| self := service; console := []; sent := [] |}.

(** The callback of [services.map] in [start]. *)
Definition syncCallback (compare : Indexer.t -> JackettIndexer.t -> bool)
    (rules : list IndexSpecificRule.t)
    (jackettIndexers : list JackettIndexer.t) (net : Net) : P unit :=
  tryCatch (sync compare rules net jackettIndexers)
    (fun error =>
       await (liftM getThis) (fun service =>
         liftM (log (SyncFailed (Service.serviceName service))))).

(** How a run of [start] ends: [process.exit(code)] after the lines
    printed, or the end of [start] with the world of each service; the
    promise of [start] is rejected when [Promise.all] is. *)
Inductive Run : Type :=
  | ProcessExit (code : Z) (lines : list LogLine)
  | Completed (worlds : list World)
  | StartRejected (error : Failure) (worlds : list World).

(** [start].  [jackett] is the way [jackett.getIndexers()] settles, and
    [services] holds each service as constructed with the application it
    talks to.  Each service has a world of its own: the lines of
    different services interleave on the one console. *)
Definition start (compare : Indexer.t -> JackettIndexer.t -> bool)
    (rules : list IndexSpecificRule.t)
    (jackett : Outcome (list JackettIndexer.t))
    (services : list (Service.t * Net)) : Run :=
  match jackett with
  | Rejected error => ProcessExit 1 [JackettCouldntGetIndexers]
  | Resolved jackettIndexers =>
      let promises :=
        map (fun service : Service.t * Net =>
               syncCallback compare rules jackettIndexers service.2
                            (fresh service.1))
            services in
      match promiseAll (map fst promises) with
      | Resolved _ => Completed (map snd promises)
      | Rejected error => StartRejected error (map snd promises)
      end
  end.

End Main.

(** ** Auxiliary definitions for the proofs *)

(** Removing the first occurrence of [x], the effect of
    [l.splice(l.indexOf(x), 1)] when [x] occurs in [l]. *)
Fixpoint removeFirst (x : Z) (l : list Z) : list Z :=
  match l with
  | [] => []
  | y :: l' => if (y =? x)%Z then l' else y :: removeFirst x l'
  end.

(** The [category] fields, in table order, of the rules that select
    [indexer] for [this]; likewise the [animeCategory] fields. *)
Definition selectedCategories (rules : list IndexSpecificRule.t)
    (this : Service.t) (indexer : JackettIndexer.t) : list (option Z) :=
  IndexSpecificRule.category <$> List.filter (ruleSelects this indexer) rules.

Definition selectedAnimeCategories (rules : list IndexSpecificRule.t)
    (this : Service.t) (indexer : JackettIndexer.t) : list (option Z) :=
  IndexSpecificRule.animeCategory
    <$> List.filter (ruleSelects this indexer) rules.

(** [current.categories] once [containsAllWantedCategories] has run the
    reversal on it. *)
Definition reversedCategories (rules : list IndexSpecificRule.t)
    (this : Service.t) (current : Indexer.t) (indexer : JackettIndexer.t)
    : list Z :=
  (undoIndexerSpecificConfiguration rules this indexer
     (Indexer.categories current) []).1.

(** The [availableCategories] of [containsAllWantedCategories]. *)
Definition availableCategories (this : Service.t)
    (indexer : JackettIndexer.t) : list Z :=
  List.filter (includes (JackettIndexer.categories indexer))
              (Service.categories this).

(** The world [containsAllWantedCategories] leaves. *)
Definition worldAfterCheck (rules : list IndexSpecificRule.t) (k : nat)
    (current : Indexer.t) (indexer : JackettIndexer.t) (w : World) : World :=
  {| self := Service.withIndexers (self w)
       (alter (fun i => Indexer.withCategories i
                          (reversedCategories rules (self w) current indexer))
              k (Service.indexers (self w)));
     console := console w; sent := sent w |}.

(** The verdict of [shouldUpdate] for the existing object [current], as a
    function of the values it reads. *)
Definition updateVerdict (compare : Indexer.t -> JackettIndexer.t -> bool)
    (rules : list IndexSpecificRule.t) (this : Service.t)
    (current : Indexer.t) (indexer : JackettIndexer.t) : bool :=
  negb (compare current indexer)
  || negb (arrayEquals (reversedCategories rules this current indexer)
                       (availableCategories this indexer)).

(** What a method may change of the instance: neither its name, nor the
    categories it wants, nor the ids of the indexers it holds. *)
Definition sameShape (s s' : Service.t) : Prop :=
  Service.serviceName s' = Service.serviceName s
  ∧ Service.categories s' = Service.categories s
  ∧ Indexer.id <$> Service.indexers s' = Indexer.id <$> Service.indexers s.

(** What the callback of [diff.map] returns for an id, read off the
    instance [this]. *)
Definition addChoice (rules : list IndexSpecificRule.t)
    (jackettIndexers : list JackettIndexer.t) (this : Service.t) (id : Z)
    : option JackettIndexer.t :=
  match findJackett jackettIndexers id with
  | Some indexer => if shouldAdd rules this indexer then Some indexer else None
  | None => None
  end.

(** What the callback of [same.map] returns for an id when it runs on the
    instance [this]. *)
Definition updateChoice (compare : Indexer.t -> JackettIndexer.t -> bool)
    (rules : list IndexSpecificRule.t)
    (jackettIndexers : list JackettIndexer.t) (this : Service.t) (id : Z)
    : option JackettIndexer.t :=
  match findJackett jackettIndexers id,
        findExisting (Service.indexers this) id with
  | Some indexer, Some existing =>
      if updateVerdict compare rules this existing.2 indexer
      then Some indexer else None
  | _, _ => None
  end.

(** The PUT sent for an entry of the update list: addressed with the
    [appId] of the record [find] returns. *)
Definition putOf (indexers : list Indexer.t) (indexer : JackettIndexer.t)
    (r : Request) : Prop :=
  ∃ existing, findById indexers indexer = Some existing
              ∧ r = Put (Indexer.appId existing) indexer.

(** ** Concrete scenarios *)

Module Scenario.
(** A consumer that wants category 2000 and holds [indexers]. *)
Definition sonarr (indexers : list Indexer.t) : Service.t :=
  {| Service.serviceName := SONARR; Service.categories := [2000%Z];
     Service.seeds := 1%Z; Service.indexers := indexers |}.

(** [{service: ALL, indexerId: 1, category: 5030}] *)
Definition ruleCategory5030 : IndexSpecificRule.t :=
  {| IndexSpecificRule.service := ALL; IndexSpecificRule.indexerId := 1%Z;
     IndexSpecificRule.category := Some 5030%Z;
     IndexSpecificRule.animeCategory := None |}.

(** [{service: ALL, indexerId: 1, animeCategory: 5070}] *)
Definition ruleAnime5070 : IndexSpecificRule.t :=
  {| IndexSpecificRule.service := ALL; IndexSpecificRule.indexerId := 1%Z;
     IndexSpecificRule.category := None;
     IndexSpecificRule.animeCategory := Some 5070%Z |}.

Definition jackett1 (categories : list Z) : JackettIndexer.t :=
  {| JackettIndexer.id := 1%Z; JackettIndexer.categories := categories |}.

Definition existing (id appId : Z) (categories : list Z) : Indexer.t :=
  {| Indexer.id := Some id; Indexer.appId := Some appId;
     Indexer.categories := categories |}.

(** An identity comparison that finds every pair of records equal. *)
Definition compareEqual (_ : Indexer.t) (_ : JackettIndexer.t) : bool := true.

Definition world (this : Service.t) : World :=
  {| self := this; console := []; sent := [] |}.

(** An application that accepts every request. *)
Definition accepting : Net :=
  {| systemReply := Resolved {| status := 200; hasData := true |};
     indexerReply := Resolved [];
     requestReply := fun _ => Resolved {| status := 201; hasData := true |} |}.

Definition jackett2 (categories : list Z) : JackettIndexer.t :=
  {| JackettIndexer.id := 2%Z; JackettIndexer.categories := categories |}.

(** An application that creates indexer 1 and answers every other POST and
    PUT with status 400 and the body [null]. *)
Definition refusingOthersWithNull : Net :=
  {| systemReply := Resolved {| status := 200; hasData := true |};
     indexerReply := Resolved [];
     requestReply := fun r =>
       if (JackettIndexer.id (requestIndexer r) =? 1)%Z
       then Resolved {| status := 201; hasData := true |}
       else Rejected (HttpErrorNullBody 400) |}.

(** An application that cannot be reached. *)
Definition unreachable : Net :=
  {| systemReply := Rejected OtherError;
     indexerReply := Rejected OtherError;
     requestReply := fun _ => Rejected OtherError |}.
End Scenario.

(** ** Configuration of a service *)

(** The [Error] [checkUrlAndApiKey] throws. *)
Inductive ConfigError : Set :=
  | NoUrlProvided
  | NoApiKeyProvided.

(** [checkUrlAndApiKey]: [None] is a value that is [null] or [undefined];
    the method returns ([inr tt]) or throws ([inl]). *)
Definition checkUrlAndApiKey (url apiKey : option String.string)
    : ConfigError + unit :=
  match url with
  | None => inl NoUrlProvided
  | Some u =>
      if String.eqb u String.EmptyString then inl NoUrlProvided
      else match apiKey with
           | None => inl NoApiKeyProvided
           | Some a =>
               if String.eqb a String.EmptyString then inl NoApiKeyProvided
               else inr tt
           end
  end.

(** ** Auxiliary definitions for the frame of the differ *)

(** The record [x'] is [x] with some of its categories taken out. *)
Definition trimmed (x x' : Indexer.t) : Prop :=
  Indexer.id x' = Indexer.id x
  ∧ Indexer.appId x' = Indexer.appId x
  ∧ Indexer.categories x' `sublist_of` Indexer.categories x.

(** The instance [s'] is [s] with some records trimmed. *)
Definition checked (s s' : Service.t) : Prop :=
  Service.serviceName s' = Service.serviceName s
  ∧ Service.categories s' = Service.categories s
  ∧ Service.seeds s' = Service.seeds s
  ∧ Forall2 trimmed (Service.indexers s) (Service.indexers s').

(** The lines [checkDifferences] prints with [console.debug]. *)
Definition isSkipLine (l : LogLine) : bool :=
  match l with
  | SkippingAdd _ _ | SkippingUpdate _ _ => true
  | _ => false
  end.

(** The two lines one of which [sync] of [main.ts] prints at its end. *)
Definition isVerdict (l : LogLine) : bool :=
  match l with
  | SyncIsDone _ | Failed _ => true
  | _ => false
  end.

(** ** Auxiliary definitions for the batches of [sync] *)

(** Whether the [catch] handler of [handleRequest] throws on a reply. *)
Definition handlerThrows (reply : Outcome Response) : bool :=
  match reply with
  | Rejected (HttpErrorNullBody _) => true
  | _ => false
  end.

(** The line [handleRequest] prints for a reply of the application to a
    request of [service]; none when its [catch] handler throws. *)
Definition entryLine (service : Services) (reply : Outcome Response)
    : option LogLine :=
  match reply with
  | Resolved response =>
      if negb (hasData response) then
        Some (UnexpectedErrorDuringRequest service)
      else if (status response =? 201)%Z then Some (AddedSuccessfully service)
      else if (status response =? 202)%Z then
        Some (UpdatedSuccessfully service)
      else Some (UnknownResponseStatus service)
  | Rejected (HttpError status) => Some (SomethingWentWrong service status)
  | Rejected (HttpErrorNullBody _) => None
  | Rejected OtherError => Some (UnexpectedErrorDuringRequest service)
  end.

(** The way the promise of [handleRequest] settles for a reply. *)
Definition settles (reply : Outcome Response) : Outcome unit :=
  if handlerThrows reply then Rejected OtherError else Resolved tt.

(** ** Facts about the array primitives *)

Lemma includes_true (l : list Z) (x : Z) : includes l x = true ↔ x ∈ l.
Proof.
  unfold includes. rewrite existsb_exists. split.
  - intros (y & Hy & Heq). apply Z.eqb_eq in Heq. subst. by apply list_elem_of_In.
  - intros H. exists x. split; [by apply list_elem_of_In | apply Z.eqb_refl].
Qed.

Lemma includes_false (l : list Z) (x : Z) : includes l x = false ↔ x ∉ l.
Proof.
  rewrite <- includes_true. destruct (includes l x); split; congruence.
Qed.

Lemma indexOf_absent (l : list Z) (x : Z) : x ∉ l → indexOf l x = (-1)%Z.
Proof.
  induction l as [|y l IH]; [done|].
  intros Hn. apply not_elem_of_cons in Hn as [Hne Hn]. simpl.
  destruct (Z.eqb_spec y x); [congruence|].
  rewrite (IH Hn). reflexivity.
Qed.

Lemma indexOf_present (l : list Z) (x : Z) :
  x ∈ l → (0 ≤ indexOf l x < Z.of_nat (length l))%Z.
Proof.
  induction l as [|y l IH]; [by intros ?%elem_of_nil|].
  intros Hin. simpl. destruct (Z.eqb_spec y x); [lia|].
  apply elem_of_cons in Hin as [?|Hin]; [congruence|].
  specialize (IH Hin). destruct (Z.ltb_spec (indexOf l x) 0); lia.
Qed.

Lemma splice_one_in_range (l : list Z) (i : nat) :
  i < length l → splice l (Z.of_nat i) 1 = delete i l.
Proof.
  intros Hi. unfold splice.
  destruct (Z.ltb_spec (Z.of_nat i) 0); [lia|].
  rewrite Z.min_l by lia. rewrite Nat2Z.id.
  rewrite delete_take_drop. by rewrite Nat.add_1_r.
Qed.

Lemma splice_indexOf (l : list Z) (x : Z) :
  x ∈ l → splice l (indexOf l x) 1 = removeFirst x l.
Proof.
  induction l as [|y l IH]; [by intros ?%elem_of_nil|].
  intros Hin. simpl. destruct (Z.eqb_spec y x) as [->|Hne].
  - apply (splice_one_in_range (x :: l) 0). simpl. lia.
  - apply elem_of_cons in Hin as [?|Hin]; [congruence|].
    pose proof (indexOf_present l x Hin) as Hr.
    destruct (Z.ltb_spec (indexOf l x) 0); [lia|].
    specialize (IH Hin).
    replace (indexOf l x + 1)%Z with (Z.of_nat (S (Z.to_nat (indexOf l x)))) by lia.
    rewrite (splice_one_in_range (y :: l)) by (simpl; lia).
    simpl. f_equal. rewrite <- IH.
    rewrite <- (splice_one_in_range l) by lia.
    f_equal. lia.
Qed.

Lemma spliceIfPresent_Some (l : list Z) (c : Z) :
  spliceIfPresent l (Some c) = removeFirst c l.
Proof.
  simpl. destruct (includes l c) eqn:E.
  - apply splice_indexOf. by apply includes_true.
  - apply includes_false in E. induction l as [|y l IH]; [done|].
    apply not_elem_of_cons in E as [Hne E]. simpl.
    destruct (Z.eqb_spec y c); [congruence|]. by rewrite <- IH.
Qed.

Lemma removeFirst_absent (x : Z) (l : list Z) : x ∉ l → removeFirst x l = l.
Proof.
  induction l as [|y l IH]; [done|].
  intros [Hne Hn]%not_elem_of_cons. simpl.
  destruct (Z.eqb_spec y x); [congruence|]. by rewrite IH.
Qed.

Lemma removeFirst_app_l (x : Z) (l1 l2 : list Z) :
  x ∈ l1 → removeFirst x (l1 ++ l2) = removeFirst x l1 ++ l2.
Proof.
  induction l1 as [|y l1 IH]; [by intros ?%elem_of_nil|].
  intros Hin. simpl. destruct (Z.eqb_spec y x); [done|].
  apply elem_of_cons in Hin as [?|Hin]; [congruence|].
  simpl. by rewrite IH.
Qed.

Lemma removeFirst_app_r (x : Z) (l1 l2 : list Z) :
  x ∉ l1 → removeFirst x (l1 ++ l2) = l1 ++ removeFirst x l2.
Proof.
  induction l1 as [|y l1 IH]; [done|].
  intros [Hne Hn]%not_elem_of_cons. simpl.
  destruct (Z.eqb_spec y x); [congruence|]. by rewrite IH.
Qed.

Lemma elem_of_removeFirst (x y : Z) (l : list Z) :
  y ∈ removeFirst x l → y ∈ l.
Proof.
  induction l as [|z l IH]; [done|]. simpl.
  destruct (Z.eqb_spec z x).
  - intros. by apply elem_of_cons; right.
  - intros [->|H]%elem_of_cons; apply elem_of_cons; auto.
Qed.

Lemma removeFirst_NoDup (x : Z) (l : list Z) :
  NoDup l → NoDup (removeFirst x l) ∧ x ∉ removeFirst x l.
Proof.
  induction 1 as [|y l Hy Hnd IH]; simpl.
  - split; [constructor | apply not_elem_of_nil].
  - destruct (Z.eqb_spec y x) as [->|Hne]; [done|].
    destruct IH as [IH1 IH2]. split.
    + constructor; [|done]. intros ?%elem_of_removeFirst. done.
    + apply not_elem_of_cons. split; [congruence | done].
Qed.

Lemma length_removeFirst (x : Z) (l : list Z) :
  x ∈ l → S (length (removeFirst x l)) = length l.
Proof.
  induction l as [|y l IH]; [by intros ?%elem_of_nil|].
  intros Hin. simpl. destruct (Z.eqb_spec y x); [done|].
  apply elem_of_cons in Hin as [?|Hin]; [congruence|].
  simpl. by rewrite IH.
Qed.

(** ** The two walks, one array at a time *)

Lemma indexerSpecificConfiguration_split rules this indexer (s a : list Z) :
  indexerSpecificConfiguration rules this indexer s a =
  (foldl pushIfAbsent s (selectedCategories rules this indexer),
   foldl pushIfAbsent a (selectedAnimeCategories rules this indexer)).
Proof.
  unfold indexerSpecificConfiguration, selectedCategories,
    selectedAnimeCategories.
  revert s a. induction rules as [|r rules IH]; intros s a; [done|].
  simpl. unfold applyRule at 2.
  destruct (ruleSelects this indexer r); simpl; apply IH.
Qed.

Lemma undoIndexerSpecificConfiguration_split rules this indexer (s a : list Z) :
  undoIndexerSpecificConfiguration rules this indexer s a =
  (foldl spliceIfPresent s (selectedCategories rules this indexer),
   foldl spliceIfPresent a (selectedAnimeCategories rules this indexer)).
Proof.
  unfold undoIndexerSpecificConfiguration, selectedCategories,
    selectedAnimeCategories.
  revert s a. induction rules as [|r rules IH]; intros s a; [done|].
  simpl. unfold undoRule at 2.
  destruct (ruleSelects this indexer r); simpl; apply IH.
Qed.

Lemma elem_of_selectedCategories rules this indexer (c : Z) :
  Some c ∈ selectedCategories rules this indexer ↔
  ∃ r, r ∈ rules ∧ ruleSelects this indexer r = true
       ∧ IndexSpecificRule.category r = Some c.
Proof.
  unfold selectedCategories. rewrite list_elem_of_fmap. split.
  - intros (r & Hc & Hr). apply list_elem_of_In, filter_In in Hr as [Hr Hs].
    exists r. by rewrite <- list_elem_of_In in Hr.
  - intros (r & Hr & Hs & Hc). exists r. split; [done|].
    apply list_elem_of_In, filter_In. by rewrite <- list_elem_of_In.
Qed.

Lemma elem_of_selectedAnimeCategories rules this indexer (c : Z) :
  Some c ∈ selectedAnimeCategories rules this indexer ↔
  ∃ r, r ∈ rules ∧ ruleSelects this indexer r = true
       ∧ IndexSpecificRule.animeCategory r = Some c.
Proof.
  unfold selectedAnimeCategories. rewrite list_elem_of_fmap. split.
  - intros (r & Hc & Hr). apply list_elem_of_In, filter_In in Hr as [Hr Hs].
    exists r. by rewrite <- list_elem_of_In in Hr.
  - intros (r & Hr & Hs & Hc). exists r. split; [done|].
    apply list_elem_of_In, filter_In. by rewrite <- list_elem_of_In.
Qed.

(** What the pushes add: a duplicate-free suffix of named values that
    were not there before. *)
Lemma pushes_shape (cs : list (option Z)) (s : list Z) :
  ∃ d, foldl pushIfAbsent s cs = s ++ d ∧ NoDup d
       ∧ ∀ x, x ∈ d → Some x ∈ cs ∧ x ∉ s.
Proof.
  revert s. induction cs as [|c cs IH]; intros s.
  - exists []. rewrite app_nil_r. split; [done|]. split; [constructor|].
    by intros x ?%elem_of_nil.
  - simpl. destruct c as [c|]; simpl.
    + destruct (includes s c) eqn:E; simpl.
      * destruct (IH s) as (d & -> & Hnd & Hd). exists d.
        repeat split; try done; [apply elem_of_cons; right|]; by apply Hd.
      * apply includes_false in E.
        destruct (IH (push s c)) as (d & -> & Hnd & Hd). unfold push in *.
        exists (c :: d). rewrite <- app_assoc. split; [done|]. split.
        -- constructor; [|done]. intros Hc. apply Hd in Hc as [_ Hc].
           apply Hc, elem_of_app. right. by apply list_elem_of_singleton.
        -- intros x [->|Hx]%elem_of_cons.
           ++ split; [apply elem_of_cons; by left | done].
           ++ apply Hd in Hx as [Hx1 Hx2]. split; [apply elem_of_cons; by right|].
              intros Hs. apply Hx2, elem_of_app. by left.
    + destruct (IH s) as (d & -> & Hnd & Hd). exists d.
      repeat split; try done; [apply elem_of_cons; right|]; by apply Hd.
Qed.

Lemma pushes_contain (cs : list (option Z)) (s : list Z) (x : Z) :
  Some x ∈ cs → x ∈ foldl pushIfAbsent s cs.
Proof.
  revert s. induction cs as [|c cs IH]; intros s; [by intros ?%elem_of_nil|].
  intros [<-|Hin]%elem_of_cons; [|by apply IH].
  cbn [foldl].
  destruct (pushes_shape cs (pushIfAbsent s (Some x))) as (d & -> & _).
  apply elem_of_app. left. simpl.
  destruct (includes s x) eqn:E; simpl.
  - by apply includes_true.
  - apply elem_of_app. right. by apply list_elem_of_singleton.
Qed.

Lemma pushes_fixed (cs : list (option Z)) (s : list Z) :
  (∀ x, Some x ∈ cs → x ∈ s) → foldl pushIfAbsent s cs = s.
Proof.
  induction cs as [|c cs IH]; intros H; [done|].
  simpl. destruct c as [c|]; simpl.
  - assert (includes s c = true) as ->.
    { apply includes_true, H, elem_of_cons. by left. }
    simpl. apply IH. intros x Hx. apply H, elem_of_cons. by right.
  - apply IH. intros x Hx. apply H, elem_of_cons. by right.
Qed.

Lemma pushes_idempotent (cs : list (option Z)) (s : list Z) :
  foldl pushIfAbsent (foldl pushIfAbsent s cs) cs = foldl pushIfAbsent s cs.
Proof. apply pushes_fixed. intros x Hx. by apply pushes_contain. Qed.

(** The reversal does not see what the application pushed. *)
Lemma splices_app_pushed (cs : list (option Z)) (s d : list Z) :
  NoDup d → (∀ x, x ∈ d → Some x ∈ cs ∧ x ∉ s) →
  foldl spliceIfPresent (s ++ d) cs = foldl spliceIfPresent s cs.
Proof.
  revert s d. induction cs as [|c cs IH]; intros s d Hnd Hd.
  - destruct d as [|x d]; [by rewrite app_nil_r|].
    destruct (Hd x) as [?%elem_of_nil _]; [apply elem_of_cons; by left | done].
  - simpl. destruct c as [c|].
    + rewrite !spliceIfPresent_Some.
      destruct (decide (c ∈ s)) as [Hs|Hs].
      * rewrite removeFirst_app_l by done. apply IH; [done|].
        intros x Hx. destruct (Hd x Hx) as [Hx1 Hx2]. split.
        -- apply elem_of_cons in Hx1 as [Heq|]; [|done].
           inversion Heq; subst. done.
        -- intros ?%elem_of_removeFirst. done.
      * rewrite removeFirst_app_r by done. rewrite (removeFirst_absent c s Hs).
        destruct (removeFirst_NoDup c d Hnd) as [Hnd' Hc].
        apply IH; [done|]. intros x Hx.
        destruct (Hd x (elem_of_removeFirst _ _ _ Hx)) as [Hx1 Hx2].
        split; [|done].
        apply elem_of_cons in Hx1 as [Heq|]; [|done].
        inversion Heq; subst. done.
    + simpl. apply IH; [done|]. intros x Hx. destruct (Hd x Hx) as [Hx1 Hx2].
      split; [|done]. by apply elem_of_cons in Hx1 as [?|].
Qed.

Lemma splices_after_pushes (cs : list (option Z)) (s : list Z) :
  foldl spliceIfPresent (foldl pushIfAbsent s cs) cs = foldl spliceIfPresent s cs.
Proof.
  destruct (pushes_shape cs s) as (d & -> & Hnd & Hd).
  by apply splices_app_pushed.
Qed.

Lemma length_spliceIfPresent (s : list Z) (c : option Z) :
  length (spliceIfPresent s c) ≤ length s.
Proof.
  destruct c as [c|]; [|done]. rewrite spliceIfPresent_Some.
  destruct (decide (c ∈ s)) as [H|H].
  - apply length_removeFirst in H. lia.
  - by rewrite removeFirst_absent.
Qed.

Lemma length_splices (cs : list (option Z)) (s : list Z) :
  length (foldl spliceIfPresent s cs) ≤ length s.
Proof.
  revert s. induction cs as [|c cs IH]; intros s; [done|].
  simpl. etrans; [apply IH | apply length_spliceIfPresent].
Qed.

Lemma splices_shorten (cs : list (option Z)) (s : list Z) (x : Z) :
  Some x ∈ cs → x ∈ s → length (foldl spliceIfPresent s cs) < length s.
Proof.
  revert s. induction cs as [|c cs IH]; intros s; [by intros ?%elem_of_nil|].
  intros Hx Hs. simpl.
  destruct c as [c|].
  - destruct (decide (c ∈ s)) as [Hc|Hc].
    + pose proof (length_splices cs (spliceIfPresent s (Some c))) as Hl.
      rewrite spliceIfPresent_Some in *.
      apply length_removeFirst in Hc. lia.
    + rewrite spliceIfPresent_Some, removeFirst_absent by done.
      apply IH; [|done]. apply elem_of_cons in Hx as [Heq|]; [|done].
      inversion Heq; subst. done.
  - simpl. apply IH; [|done]. by apply elem_of_cons in Hx as [?|].
Qed.

Lemma splices_fixed (cs : list (option Z)) (s : list Z) :
  (∀ x, Some x ∈ cs → x ∉ s) → foldl spliceIfPresent s cs = s.
Proof.
  induction cs as [|c cs IH]; intros H; [done|].
  simpl. destruct c as [c|].
  - rewrite spliceIfPresent_Some, removeFirst_absent.
    + apply IH. intros x Hx. apply H, elem_of_cons. by right.
    + apply H, elem_of_cons. by left.
  - apply IH. intros x Hx. apply H, elem_of_cons. by right.
Qed.

Lemma splices_fixed_iff (cs : list (option Z)) (s : list Z) :
  foldl spliceIfPresent s cs = s ↔ (∀ x, Some x ∈ cs → x ∉ s).
Proof.
  split; [|apply splices_fixed].
  intros Heq x Hx Hs. pose proof (splices_shorten cs s x Hx Hs) as Hl.
  rewrite Heq in Hl. lia.
Qed.

(** ** Application and reversal of the override rules *)

(** Scenario of the specification: rule [{ALL, 1, 5030}], indexer 1 with
    categories [2000]: the categories sent are [2000, 5030]. *)
Example apply_scenario :
  indexerSpecificConfiguration [Scenario.ruleCategory5030]
    (Scenario.sonarr []) (Scenario.jackett1 [2000%Z]) [2000%Z] []
  = ([2000%Z; 5030%Z], []).
Proof. reflexivity. Qed.

(** C1, as stated, fails: when the base collection already holds the
    category a selected rule names, the application leaves it alone and the
    reversal removes it. *)
Lemma undo_apply_not_inverse :
  let applied :=
    indexerSpecificConfiguration [Scenario.ruleCategory5030]
      (Scenario.sonarr []) (Scenario.jackett1 [5030%Z]) [5030%Z] [] in
  undoIndexerSpecificConfiguration [Scenario.ruleCategory5030]
    (Scenario.sonarr []) (Scenario.jackett1 [5030%Z]) applied.1 applied.2
  ≠ ([5030%Z], []).
Proof. vm_compute. discriminate. Qed.

(** C1, amended: applying the override rules and then reversing them with
    the same rule table, consumer and indexer gives back both collections,
    provided no selected rule names a category already in the base
    collection or an anime category already in the anime collection. *)
Theorem undo_apply_inverse rules this indexer (C A : list Z) :
  (∀ r c, r ∈ rules → ruleSelects this indexer r = true →
          IndexSpecificRule.category r = Some c → c ∉ C) →
  (∀ r c, r ∈ rules → ruleSelects this indexer r = true →
          IndexSpecificRule.animeCategory r = Some c → c ∉ A) →
  undoIndexerSpecificConfiguration rules this indexer
    (indexerSpecificConfiguration rules this indexer C A).1
    (indexerSpecificConfiguration rules this indexer C A).2
  = (C, A).
Proof.
  intros HC HA.
  rewrite indexerSpecificConfiguration_split. simpl.
  rewrite undoIndexerSpecificConfiguration_split.
  rewrite !splices_after_pushes. f_equal; apply splices_fixed.
  - intros x (r & Hr & Hs & Hc)%elem_of_selectedCategories. eauto.
  - intros x (r & Hr & Hs & Hc)%elem_of_selectedAnimeCategories. eauto.
Qed.

Lemma undo_apply_inverse_witness :
  undoIndexerSpecificConfiguration [Scenario.ruleCategory5030]
    (Scenario.sonarr []) (Scenario.jackett1 [2000%Z])
    (indexerSpecificConfiguration [Scenario.ruleCategory5030]
       (Scenario.sonarr []) (Scenario.jackett1 [2000%Z]) [2000%Z] []).1
    (indexerSpecificConfiguration [Scenario.ruleCategory5030]
       (Scenario.sonarr []) (Scenario.jackett1 [2000%Z]) [2000%Z] []).2
  = ([2000%Z], []).
Proof.
  apply undo_apply_inverse.
  - intros r c ->%list_elem_of_singleton _ [= <-].
    intros [=]%list_elem_of_singleton.
  - intros r c ->%list_elem_of_singleton _ [=].
Defined.

(** In general the reversal of an application is the reversal of the
    base. *)
Lemma reversal_of_application rules this indexer (C A : list Z) :
  undoIndexerSpecificConfiguration rules this indexer
    (indexerSpecificConfiguration rules this indexer C A).1
    (indexerSpecificConfiguration rules this indexer C A).2
  = undoIndexerSpecificConfiguration rules this indexer C A.
Proof.
  rewrite indexerSpecificConfiguration_split. simpl.
  rewrite !undoIndexerSpecificConfiguration_split.
  by rewrite !splices_after_pushes.
Qed.

(** The side condition of the amended inverse law is also necessary. *)
Lemma inverse_side_condition_necessary rules this indexer (C A : list Z) :
  undoIndexerSpecificConfiguration rules this indexer
    (indexerSpecificConfiguration rules this indexer C A).1
    (indexerSpecificConfiguration rules this indexer C A).2
  = (C, A) →
  ∀ r c, r ∈ rules → ruleSelects this indexer r = true →
         (IndexSpecificRule.category r = Some c → c ∉ C)
         ∧ (IndexSpecificRule.animeCategory r = Some c → c ∉ A).
Proof.
  rewrite reversal_of_application, undoIndexerSpecificConfiguration_split.
  intros [= HC HA] r c Hr Hs.
  split; intros Hc.
  - eapply splices_fixed_iff; [exact HC|].
    apply elem_of_selectedCategories. eauto.
  - eapply splices_fixed_iff; [exact HA|].
    apply elem_of_selectedAnimeCategories. eauto.
Qed.

(** C7: applying the override rules to the collections an application
    produced changes nothing. *)
Theorem indexerSpecificConfiguration_idempotent rules this indexer
    (C A : list Z) :
  indexerSpecificConfiguration rules this indexer
    (indexerSpecificConfiguration rules this indexer C A).1
    (indexerSpecificConfiguration rules this indexer C A).2
  = indexerSpecificConfiguration rules this indexer C A.
Proof.
  rewrite !indexerSpecificConfiguration_split. simpl.
  by rewrite !pushes_idempotent.
Qed.

(** ** The equivalence check *)

Lemma arrayEquals_true (a b : list Z) :
  arrayEquals a b = true ↔ ∀ c, c ∈ a ↔ c ∈ b.
Proof.
  unfold arrayEquals. rewrite andb_true_iff, !forallb_forall. split.
  - intros [Hab Hba] c. split; intros Hc%list_elem_of_In.
    + by apply includes_true, Hab.
    + by apply includes_true, Hba.
  - intros H. split; intros c Hc%list_elem_of_In; apply includes_true, H, Hc.
Qed.

Lemma elem_of_availableCategories this indexer (c : Z) :
  c ∈ availableCategories this indexer ↔
  c ∈ Service.categories this ∧ c ∈ JackettIndexer.categories indexer.
Proof.
  unfold availableCategories.
  rewrite list_elem_of_In, filter_In, includes_true, <- list_elem_of_In. done.
Qed.

Section EngineFacts.

Variable compare : Indexer.t -> JackettIndexer.t -> bool.
Variable rules : list IndexSpecificRule.t.

Lemma containsAllWantedCategories_run k indexer w current :
  Service.indexers (self w) !! k = Some current →
  containsAllWantedCategories rules k indexer w =
  Some (arrayEquals (reversedCategories rules (self w) current indexer)
                    (availableCategories (self w) indexer),
        worldAfterCheck rules k current indexer w).
Proof.
  intros H. unfold containsAllWantedCategories, bind, getThis, deref.
  rewrite H. reflexivity.
Qed.

Lemma shouldUpdate_run k indexer w current :
  Service.indexers (self w) !! k = Some current →
  shouldUpdate compare rules k indexer w =
  Some (updateVerdict compare rules (self w) current indexer,
        if compare current indexer
        then worldAfterCheck rules k current indexer w else w).
Proof.
  intros H. unfold shouldUpdate, bind, getThis, deref, updateVerdict.
  rewrite H. destruct (compare current indexer); simpl; [|done].
  by rewrite (containsAllWantedCategories_run _ _ _ _ H).
Qed.

Lemma updateVerdict_true this current indexer :
  updateVerdict compare rules this current indexer = true ↔
  compare current indexer = false
  ∨ ¬ (∀ c, c ∈ reversedCategories rules this current indexer ↔
            c ∈ Service.categories this ∧ c ∈ JackettIndexer.categories indexer).
Proof.
  unfold updateVerdict. rewrite orb_true_iff, !negb_true_iff.
  rewrite <- (not_true_iff_false (arrayEquals _ _)), arrayEquals_true.
  by setoid_rewrite elem_of_availableCategories.
Qed.

End EngineFacts.

(** C3: [shouldUpdate] answers true exactly when the identity comparison
    reports a difference, or the existing categories after the reversal of
    the overrides do not have the same elements as the expected categories,
    those the consumer wants among the categories of the source indexer. *)
Theorem shouldUpdate_iff compare rules k indexer w current :
  Service.indexers (self w) !! k = Some current →
  ∃ b w', shouldUpdate compare rules k indexer w = Some (b, w') ∧
    (b = true ↔
     compare current indexer = false
     ∨ ¬ (∀ c, c ∈ (undoIndexerSpecificConfiguration rules (self w) indexer
                      (Indexer.categories current) []).1 ↔
               c ∈ Service.categories (self w)
               ∧ c ∈ JackettIndexer.categories indexer)).
Proof.
  intros H. eexists _, _. split; [by apply shouldUpdate_run|].
  apply updateVerdict_true.
Qed.

Lemma shouldUpdate_iff_witness :
  ∃ b w',
    shouldUpdate Scenario.compareEqual [Scenario.ruleCategory5030] 0
      (Scenario.jackett1 [2000%Z])
      (Scenario.world (Scenario.sonarr [Scenario.existing 1 7 [5030%Z; 2000%Z]]))
    = Some (b, w')
    ∧ (b = true ↔
       Scenario.compareEqual (Scenario.existing 1 7 [5030%Z; 2000%Z])
         (Scenario.jackett1 [2000%Z]) = false
       ∨ ¬ (∀ c, c ∈ (undoIndexerSpecificConfiguration
                        [Scenario.ruleCategory5030]
                        (Scenario.sonarr [Scenario.existing 1 7 [5030%Z; 2000%Z]])
                        (Scenario.jackett1 [2000%Z]) [5030%Z; 2000%Z] []).1 ↔
                 c ∈ [2000%Z] ∧ c ∈ [2000%Z])).
Proof.
  apply (shouldUpdate_iff Scenario.compareEqual [Scenario.ruleCategory5030] 0
           (Scenario.jackett1 [2000%Z])
           (Scenario.world
              (Scenario.sonarr [Scenario.existing 1 7 [5030%Z; 2000%Z]]))
           (Scenario.existing 1 7 [5030%Z; 2000%Z])).
  reflexivity.
Defined.

(** C6: when the identity fields match and the existing categories after
    the reversal hold the same elements as the expected categories, in
    whatever order, [shouldUpdate] answers false. *)
Theorem shouldUpdate_order_independent compare rules k indexer w current :
  Service.indexers (self w) !! k = Some current →
  compare current indexer = true →
  (∀ c, c ∈ (undoIndexerSpecificConfiguration rules (self w) indexer
               (Indexer.categories current) []).1 ↔
        c ∈ List.filter (includes (JackettIndexer.categories indexer))
                        (Service.categories (self w))) →
  ∃ w', shouldUpdate compare rules k indexer w = Some (false, w').
Proof.
  intros H Hc Hset. eexists. rewrite (shouldUpdate_run _ _ _ _ _ _ H).
  f_equal. f_equal. unfold updateVerdict. rewrite Hc. simpl.
  apply negb_false_iff, arrayEquals_true. exact Hset.
Qed.

Lemma shouldUpdate_order_independent_witness :
  ∃ w',
    shouldUpdate Scenario.compareEqual [Scenario.ruleCategory5030] 0
      (Scenario.jackett1 [3000%Z; 2000%Z])
      (Scenario.world
         {| Service.serviceName := SONARR;
            Service.categories := [2000%Z; 3000%Z]; Service.seeds := 1%Z;
            Service.indexers :=
              [Scenario.existing 1 7 [3000%Z; 5030%Z; 2000%Z]] |})
    = Some (false, w').
Proof.
  apply (shouldUpdate_order_independent _ _ _ _ _
           (Scenario.existing 1 7 [3000%Z; 5030%Z; 2000%Z])).
  - reflexivity.
  - reflexivity.
  - intros c. vm_compute (undoIndexerSpecificConfiguration _ _ _ _ _).1.
    vm_compute (List.filter _ _).
    rewrite !elem_of_cons, !elem_of_nil. tauto.
Defined.

(** ** The differ *)

Lemma filterNotEmpty_fmap {A B} (f : A → option B) (l : list A) :
  filterNotEmpty (f <$> l) = omap f l.
Proof.
  unfold filterNotEmpty. induction l as [|x l IH]; [done|].
  csimpl. rewrite IH. by destruct (f x).
Qed.

Lemma elem_of_filterNotEmpty {A} (l : list (option A)) (x : A) :
  x ∈ filterNotEmpty l ↔ Some x ∈ l.
Proof.
  unfold filterNotEmpty. rewrite list_elem_of_omap. split.
  - intros (y & Hy & Heq). unfold id in Heq. by subst.
  - intros H. by exists (Some x).
Qed.

Lemma elem_of_serviceIdList this (id : Z) :
  id ∈ serviceIdList this ↔
  ∃ x, x ∈ Service.indexers this ∧ Indexer.id x = Some id.
Proof.
  unfold serviceIdList. by rewrite filterNotEmpty_fmap, list_elem_of_omap.
Qed.

Lemma elem_of_idList jackettIndexers (id : Z) :
  id ∈ idList jackettIndexers ↔
  ∃ j, j ∈ jackettIndexers ∧ JackettIndexer.id j = id.
Proof.
  unfold idList. rewrite list_elem_of_fmap. split.
  - intros (j & -> & Hj). by exists j.
  - intros (j & Hj & <-). by exists j.
Qed.

Lemma sameShape_refl s : sameShape s s.
Proof. by repeat split. Qed.

Lemma sameShape_trans s1 s2 s3 :
  sameShape s1 s2 → sameShape s2 s3 → sameShape s1 s3.
Proof. intros (?&?&?) (?&?&?). repeat split; congruence. Qed.

Lemma sameShape_serviceIdList s s' :
  sameShape s s' → serviceIdList s' = serviceIdList s.
Proof. intros (_&_&H). unfold serviceIdList. by rewrite H. Qed.

Lemma sameShape_alter s f k :
  (∀ x, Indexer.id (f x) = Indexer.id x) →
  sameShape s (Service.withIndexers s (alter f k (Service.indexers s))).
Proof.
  intros Hf. repeat split. simpl.
  apply list_eq. intros i. rewrite !list_lookup_fmap.
  destruct (decide (k = i)) as [->|Hne].
  - rewrite list_lookup_alter_eq. destruct (Service.indexers s !! i); simpl;
      by rewrite ?Hf.
  - by rewrite list_lookup_alter_ne.
Qed.

Lemma findJackett_Some jackettIndexers (id : Z) j :
  findJackett jackettIndexers id = Some j →
  j ∈ jackettIndexers ∧ JackettIndexer.id j = id.
Proof.
  intros [H1 H2]%find_some. split; [by apply list_elem_of_In|].
  by apply Z.eqb_eq.
Qed.

Lemma findJackett_is_Some jackettIndexers (id : Z) :
  id ∈ idList jackettIndexers → is_Some (findJackett jackettIndexers id).
Proof.
  intros (j & Hj & Hid)%elem_of_idList.
  destruct (findJackett jackettIndexers id) eqn:E; [done|].
  apply list_elem_of_In in Hj. apply (find_none _ _ E j) in Hj.
  apply Z.eqb_neq in Hj. done.
Qed.

Lemma findJackett_unique jackettIndexers j :
  NoDup (idList jackettIndexers) → j ∈ jackettIndexers →
  findJackett jackettIndexers (JackettIndexer.id j) = Some j.
Proof.
  unfold idList, findJackett.
  induction jackettIndexers as [|x l IH]; [by intros _ ?%elem_of_nil|].
  rewrite fmap_cons. intros [Hx Hnd]%NoDup_cons Hin. simpl.
  destruct (Z.eqb_spec (JackettIndexer.id x) (JackettIndexer.id j)) as [Heq|Hne].
  - apply elem_of_cons in Hin as [->|Hin]; [done|].
    destruct Hx. rewrite Heq. by apply list_elem_of_fmap_2.
  - apply elem_of_cons in Hin as [->|Hin]; [done|]. by apply IH.
Qed.

Lemma findExisting_Some indexers (id : Z) k x :
  findExisting indexers id = Some (k, x) →
  indexers !! k = Some x ∧ Indexer.id x = Some id.
Proof. intros (?&?&_)%list_find_Some. done. Qed.

Lemma findExisting_is_Some this (id : Z) :
  id ∈ serviceIdList this →
  is_Some (findExisting (Service.indexers this) id).
Proof.
  intros (x & Hx & Hid)%elem_of_serviceIdList.
  by apply (list_find_elem_of _ _ x).
Qed.

(** [find] looks at the ids only: it stops at the same index as long as
    the ids at each index stay. *)
Lemma findExisting_same_ids l l' (id : Z) k x x' :
  Indexer.id <$> l' = Indexer.id <$> l →
  findExisting l id = Some (k, x) → l' !! k = Some x' →
  findExisting l' id = Some (k, x').
Proof.
  intros Hids (Hk & HP & Hlt)%list_find_Some Hk'.
  assert (∀ i y', l' !! i = Some y' →
                  ∃ y, l !! i = Some y ∧ Indexer.id y = Indexer.id y') as Hat.
  { intros i y' Hy'.
    assert ((Indexer.id <$> l) !! i = Some (Indexer.id y')) as H.
    { rewrite <- Hids, list_lookup_fmap, Hy'. done. }
    apply list_lookup_fmap_Some in H as (y & ? & ?). eauto. }
  apply list_find_Some. split; [done|]. split.
  - destruct (Hat _ _ Hk') as (y & Hy & Hid). congruence.
  - intros i y' Hy' Hi HP'. destruct (Hat _ _ Hy') as (y & Hy & Hid).
    apply (Hlt i y Hy Hi). congruence.
Qed.

Section DifferFacts.

Variable compare : Indexer.t -> JackettIndexer.t -> bool.
Variable rules : list IndexSpecificRule.t.
Variable jackettIndexers : list JackettIndexer.t.

Lemma sameShape_shouldAdd s s' j :
  sameShape s s' → shouldAdd rules s' j = shouldAdd rules s j.
Proof.
  intros (Hn & Hc & _). unfold shouldAdd, doesIndexerSpecificRuleApply.
  rewrite Hc. f_equal. induction rules as [|r rs IH]; [done|].
  simpl. rewrite IH. f_equal. unfold ruleSelects. by rewrite Hn.
Qed.

Lemma sameShape_reversedCategories s s' x j :
  sameShape s s' →
  reversedCategories rules s' x j = reversedCategories rules s x j.
Proof.
  intros (Hn & _ & _). unfold reversedCategories.
  rewrite !undoIndexerSpecificConfiguration_split. simpl.
  f_equal. unfold selectedCategories. f_equal.
  induction rules as [|r rs IH]; [done|].
  simpl. rewrite IH. unfold ruleSelects at 1 3. by rewrite Hn.
Qed.

Lemma sameShape_updateVerdict s s' x j :
  sameShape s s' →
  updateVerdict compare rules s' x j = updateVerdict compare rules s x j.
Proof.
  intros Hs. unfold updateVerdict.
  rewrite (sameShape_reversedCategories _ _ _ _ Hs).
  destruct Hs as (_ & Hc & _). unfold availableCategories. by rewrite Hc.
Qed.

Lemma addEntry_run (id : Z) w :
  id ∈ idList jackettIndexers →
  ∃ w', addEntry rules jackettIndexers id w
        = Some (addChoice rules jackettIndexers (self w) id, w')
        ∧ self w' = self w ∧ sent w' = sent w.
Proof.
  intros [j Hj]%findJackett_is_Some.
  unfold addEntry, addChoice, bind, getThis, deref. rewrite Hj.
  destruct (shouldAdd rules (self w) j); eexists; (split; [reflexivity|done]).
Qed.

Lemma mapM_addEntry_run (ids : list Z) w :
  (∀ id, id ∈ ids → id ∈ idList jackettIndexers) →
  ∃ w', mapM (addEntry rules jackettIndexers) ids w
        = Some (addChoice rules jackettIndexers (self w) <$> ids, w')
        ∧ self w' = self w ∧ sent w' = sent w.
Proof.
  revert w. induction ids as [|id ids IH]; intros w Hids.
  - exists w. done.
  - destruct (addEntry_run id w) as (w1 & Hrun & Hs1 & Ht1).
    { apply Hids, elem_of_cons. by left. }
    destruct (IH w1) as (w2 & Hrun2 & Hs2 & Ht2).
    { intros ??. apply Hids, elem_of_cons. by right. }
    exists w2. simpl. unfold bind at 1. rewrite Hrun.
    unfold bind at 1. rewrite Hrun2. unfold ret. rewrite Hs1.
    split; [done|]. split; congruence.
Qed.

(** One turn of [same.map]: the verdict is the one read off the world it
    starts in, and only the object found may change. *)
Lemma updateEntry_run (id : Z) w j k x :
  findJackett jackettIndexers id = Some j →
  findExisting (Service.indexers (self w)) id = Some (k, x) →
  ∃ w', updateEntry compare rules jackettIndexers id w
        = Some (if updateVerdict compare rules (self w) x j
                then Some j else None, w')
        ∧ sameShape (self w) (self w')
        ∧ (∀ k', k' ≠ k →
             Service.indexers (self w') !! k' = Service.indexers (self w) !! k')
        ∧ sent w' = sent w.
Proof.
  intros Hj Hx. pose proof (findExisting_Some _ _ _ _ Hx) as [Hk _].
  unfold updateEntry, bind at 1 2 3 4, getThis, deref. rewrite Hj, Hx. simpl.
  rewrite (shouldUpdate_run compare rules _ _ _ _ Hk).
  assert (sameShape (self w) (self (worldAfterCheck rules k x j w))
          ∧ ∀ k', k' ≠ k →
              Service.indexers (self (worldAfterCheck rules k x j w)) !! k'
              = Service.indexers (self w) !! k') as [Hshape Hframe].
  { split; [by apply sameShape_alter|].
    intros k' Hne. simpl. by apply list_lookup_alter_ne. }
  destruct (updateVerdict compare rules (self w) x j),
           (compare x j); eexists; (split; [reflexivity|]);
    simpl; auto using sameShape_refl.
Qed.

(** [same.map], whatever the source holds: it returns, it keeps the shape
    of the instance, and what it keeps was found in the source under one of
    the ids walked. *)
Lemma mapM_updateEntry_total (ids : list Z) w :
  (∀ id, id ∈ ids →
         id ∈ idList jackettIndexers ∧ id ∈ serviceIdList (self w)) →
  ∃ res w', mapM (updateEntry compare rules jackettIndexers) ids w
            = Some (res, w')
    ∧ sameShape (self w) (self w') ∧ sent w' = sent w
    ∧ ∀ j, Some j ∈ res →
           j ∈ jackettIndexers ∧ JackettIndexer.id j ∈ ids.
Proof.
  revert w. induction ids as [|id ids IH]; intros w Hids.
  - exists [], w. split; [done|]. split; [apply sameShape_refl|].
    split; [done|]. by intros j ?%elem_of_nil.
  - destruct (Hids id) as [Hsrc Hsvc]; [apply elem_of_cons; by left|].
    destruct (findJackett_is_Some _ _ Hsrc) as [j Hj].
    destruct (findExisting_is_Some _ _ Hsvc) as [[k x] Hx].
    destruct (updateEntry_run id w j k x Hj Hx)
      as (w1 & Hrun & Hshape & _ & Hsent).
    destruct (IH w1) as (res & w2 & Hrun2 & Hshape2 & Hsent2 & Hres).
    { intros id' Hid'. destruct (Hids id') as [? ?]; [apply elem_of_cons; by right|].
      split; [done|]. by rewrite (sameShape_serviceIdList _ _ Hshape). }
    eexists _, w2. simpl. unfold bind at 1. rewrite Hrun.
    unfold bind at 1. rewrite Hrun2. unfold ret.
    split; [reflexivity|]. split; [by eapply sameShape_trans|].
    split; [congruence|].
    intros j' [Hj'|Hj']%elem_of_cons.
    + destruct (updateVerdict compare rules (self w) x j); [|done].
      injection Hj' as ->. apply findJackett_Some in Hj as [? ->].
      split; [done|]. apply elem_of_cons. by left.
    + destruct (Hres j' Hj') as [? ?]. split; [done|].
      apply elem_of_cons. by right.
Qed.

(** [same.map] over ids without repetition: every verdict is the one read
    off the instance the walk started from. *)
Lemma mapM_updateEntry_exact s0 (ids : list Z) w :
  NoDup ids →
  (∀ id, id ∈ ids →
         id ∈ idList jackettIndexers ∧ id ∈ serviceIdList s0) →
  sameShape s0 (self w) →
  (∀ id k x, id ∈ ids →
     findExisting (Service.indexers s0) id = Some (k, x) →
     Service.indexers (self w) !! k = Some x) →
  ∃ w', mapM (updateEntry compare rules jackettIndexers) ids w
        = Some (updateChoice compare rules jackettIndexers s0 <$> ids, w')
    ∧ sameShape s0 (self w') ∧ sent w' = sent w.
Proof.
  revert w. induction ids as [|id ids IH]; intros w Hnd Hids Hshape Hkept.
  - exists w. done.
  - apply NoDup_cons in Hnd as [Hid Hnd].
    destruct (Hids id) as [Hsrc Hsvc]; [apply elem_of_cons; by left|].
    destruct (findJackett_is_Some _ _ Hsrc) as [j Hj].
    destruct (findExisting_is_Some _ _ Hsvc) as [[k x] Hx0].
    assert (Service.indexers (self w) !! k = Some x) as Hk.
    { eapply Hkept; [|done]. apply elem_of_cons. by left. }
    assert (findExisting (Service.indexers (self w)) id = Some (k, x)) as Hx.
    { destruct Hshape as (_ & _ & Hi). by eapply findExisting_same_ids. }
    destruct (updateEntry_run id w j k x Hj Hx)
      as (w1 & Hrun & Hshape1 & Hframe & Hsent).
    destruct (IH w1) as (w2 & Hrun2 & Hshape2 & Hsent2); [done|..].
    { intros ??. apply Hids, elem_of_cons. by right. }
    { by eapply sameShape_trans. }
    { intros id' k' x' Hid' Hx'. rewrite Hframe.
      - eapply Hkept; [|done]. apply elem_of_cons. by right.
      - intros ->.
        apply findExisting_Some in Hx0 as [Hl Hi], Hx' as [Hl' Hi'].
        assert (id' = id) as -> by congruence. done. }
    exists w2. simpl. unfold bind at 1. rewrite Hrun.
    unfold bind at 1. rewrite Hrun2. unfold ret.
    split; [|split; [done | congruence]].
    do 3 f_equal. unfold updateChoice. rewrite Hj, Hx0. simpl.
    by rewrite (sameShape_updateVerdict _ _ _ _ Hshape).
Qed.

Lemma forEachM_log_run (f : Z → LogLine) (l : list Z) w :
  forEachM (fun x => log (f x)) l w
  = Some (tt, {| self := self w; console := console w ++ (f <$> l);
                 sent := sent w |}).
Proof.
  revert w. induction l as [|x l IH]; intros w.
  - simpl. unfold ret. rewrite app_nil_r. by destruct w.
  - simpl. unfold bind, log. rewrite IH. simpl. by rewrite <- app_assoc.
Qed.

Lemma same_spec this (id : Z) :
  id ∈ same jackettIndexers this ↔
  id ∈ idList jackettIndexers ∧ id ∈ serviceIdList this.
Proof.
  unfold same.
  rewrite list_elem_of_In, filter_In, includes_true, <- list_elem_of_In. done.
Qed.

Lemma diff_spec this (id : Z) :
  id ∈ diff jackettIndexers this ↔
  id ∈ idList jackettIndexers ∧ id ∉ serviceIdList this.
Proof.
  unfold diff.
  rewrite list_elem_of_In, filter_In, negb_true_iff, includes_false,
    <- list_elem_of_In. done.
Qed.

Lemma notInJackett_spec this (id : Z) :
  id ∈ notInJackett jackettIndexers this ↔
  id ∈ serviceIdList this ∧ id ∉ idList jackettIndexers.
Proof.
  unfold notInJackett.
  rewrite list_elem_of_In, filter_In, negb_true_iff, includes_false,
    <- list_elem_of_In. done.
Qed.

Lemma NoDup_filter_bool (f : Z → bool) (l : list Z) :
  NoDup l → NoDup (List.filter f l).
Proof.
  induction 1 as [|x l Hx Hnd IH]; simpl; [constructor|].
  destruct (f x); [|done]. constructor; [|done].
  intros [H _]%list_elem_of_In%filter_In. apply Hx. by apply list_elem_of_In.
Qed.

(** [checkDifferences] returns, whatever it is given. *)
Lemma checkDifferences_total w :
  ∃ d w', checkDifferences compare rules jackettIndexers w = Some (d, w')
    ∧ sameShape (self w) (self w') ∧ sent w' = sent w
    ∧ Differences.add d
      = filterNotEmpty (addChoice rules jackettIndexers (self w)
                        <$> diff jackettIndexers (self w))
    ∧ (∀ j, j ∈ Differences.update d →
            j ∈ jackettIndexers
            ∧ JackettIndexer.id j ∈ same jackettIndexers (self w))
    ∧ ∃ lines, console w'
               = lines ++ (NotInJackett (Service.serviceName (self w))
                           <$> notInJackett jackettIndexers (self w)).
Proof.
  destruct (mapM_addEntry_run (diff jackettIndexers (self w)) w)
    as (w1 & Hadd & Hs1 & Ht1).
  { intros id Hid. by apply diff_spec in Hid as [? _]. }
  destruct (mapM_updateEntry_total (same jackettIndexers (self w)) w1)
    as (res & w2 & Hupd & Hshape2 & Ht2 & Hres).
  { intros id Hid. rewrite Hs1. by apply same_spec. }
  eexists _, _. unfold checkDifferences, bind at 1, getThis.
  unfold bind at 1. rewrite Hadd. unfold bind at 1. rewrite Hupd.
  unfold bind at 1. rewrite forEachM_log_run. unfold ret.
  split; [reflexivity|]. simpl.
  split; [by rewrite <- Hs1|]. split; [congruence|]. split; [done|].
  split.
  { intros j Hj. apply elem_of_filterNotEmpty, Hres in Hj as [? ?].
    done. }
  by eexists.
Qed.

(** [checkDifferences] on a source without repeated ids. *)
Lemma checkDifferences_exact w :
  NoDup (idList jackettIndexers) →
  ∃ d w', checkDifferences compare rules jackettIndexers w = Some (d, w')
    ∧ Differences.add d
      = filterNotEmpty (addChoice rules jackettIndexers (self w)
                        <$> diff jackettIndexers (self w))
    ∧ Differences.update d
      = filterNotEmpty (updateChoice compare rules jackettIndexers (self w)
                        <$> same jackettIndexers (self w)).
Proof.
  intros Hnd.
  destruct (mapM_addEntry_run (diff jackettIndexers (self w)) w)
    as (w1 & Hadd & Hs1 & Ht1).
  { intros id Hid. by apply diff_spec in Hid as [? _]. }
  destruct (mapM_updateEntry_exact (self w) (same jackettIndexers (self w)) w1)
    as (w2 & Hupd & Hshape2 & Ht2).
  { by apply NoDup_filter_bool. }
  { intros id Hid. by apply same_spec. }
  { rewrite Hs1. apply sameShape_refl. }
  { intros id k x _ Hx. rewrite Hs1. by apply findExisting_Some in Hx as [? _]. }
  eexists _, _. unfold checkDifferences, bind at 1, getThis.
  unfold bind at 1. rewrite Hadd. unfold bind at 1. rewrite Hupd.
  unfold bind at 1. rewrite forEachM_log_run. unfold ret.
  split; [reflexivity|]. done.
Qed.

Lemma elem_of_add_choices this j :
  NoDup (idList jackettIndexers) →
  j ∈ filterNotEmpty (addChoice rules jackettIndexers this
                      <$> diff jackettIndexers this) ↔
  j ∈ jackettIndexers ∧ (JackettIndexer.id j ∉ serviceIdList this)
  ∧ shouldAdd rules this j = true.
Proof.
  intros Hnd. rewrite elem_of_filterNotEmpty, list_elem_of_fmap. split.
  - intros (id & Hc & [Hsrc Hsvc]%diff_spec). unfold addChoice in Hc.
    destruct (findJackett jackettIndexers id) as [j'|] eqn:Hj; [|done].
    destruct (shouldAdd rules this j') eqn:Ha; [|done].
    injection Hc as ->. apply findJackett_Some in Hj as [? <-]. done.
  - intros (Hj & Hsvc & Ha). exists (JackettIndexer.id j). split.
    + unfold addChoice. by rewrite (findJackett_unique _ _ Hnd Hj), Ha.
    + apply diff_spec. split; [|done]. apply elem_of_idList. eauto.
Qed.

Lemma elem_of_update_choices this j :
  NoDup (idList jackettIndexers) →
  j ∈ filterNotEmpty (updateChoice compare rules jackettIndexers this
                      <$> same jackettIndexers this) ↔
  j ∈ jackettIndexers ∧ JackettIndexer.id j ∈ serviceIdList this
  ∧ ∃ k existing,
      findExisting (Service.indexers this) (JackettIndexer.id j)
      = Some (k, existing)
      ∧ updateVerdict compare rules this existing j = true.
Proof.
  intros Hnd. rewrite elem_of_filterNotEmpty, list_elem_of_fmap. split.
  - intros (id & Hc & [Hsrc Hsvc]%same_spec). unfold updateChoice in Hc.
    destruct (findJackett jackettIndexers id) as [j'|] eqn:Hj; [|done].
    destruct (findExisting (Service.indexers this) id) as [[k x]|] eqn:Hx;
      [|done].
    simpl in Hc.
    destruct (updateVerdict compare rules this x j') eqn:Hv; [|done].
    injection Hc as ->. apply findJackett_Some in Hj as [? <-]. eauto 10.
  - intros (Hj & Hsvc & k & x & Hx & Hv). exists (JackettIndexer.id j). split.
    + unfold updateChoice. rewrite (findJackett_unique _ _ Hnd Hj), Hx.
      simpl. by rewrite Hv.
    + apply same_spec. split; [|done]. apply elem_of_idList. eauto.
Qed.

End DifferFacts.

(** ** The lists of the differ *)

(** C2: on a source catalog (ids unique within one fetch), the add list
    holds exactly the source indexers whose id the consumer does not hold
    and that [shouldAdd] accepts, and the update list exactly the source
    indexers whose id the consumer holds and for which [shouldUpdate], run
    on the record [find] returns for that id, answers true. *)
Theorem checkDifferences_lists compare rules jackettIndexers w :
  NoDup (idList jackettIndexers) →
  ∃ d w', checkDifferences compare rules jackettIndexers w = Some (d, w')
    ∧ (∀ j, j ∈ Differences.add d ↔
            j ∈ jackettIndexers
            ∧ (JackettIndexer.id j ∉ serviceIdList (self w))
            ∧ shouldAdd rules (self w) j = true)
    ∧ (∀ j, j ∈ Differences.update d ↔
            j ∈ jackettIndexers
            ∧ JackettIndexer.id j ∈ serviceIdList (self w)
            ∧ ∃ k existing w1,
                findExisting (Service.indexers (self w)) (JackettIndexer.id j)
                = Some (k, existing)
                ∧ shouldUpdate compare rules k j w = Some (true, w1)).
Proof.
  intros Hnd.
  destruct (checkDifferences_exact compare rules jackettIndexers w Hnd)
    as (d & w' & Hrun & Hadd & Hupd).
  exists d, w'. split; [done|]. split; intros j.
  - rewrite Hadd. by apply elem_of_add_choices.
  - rewrite Hupd, elem_of_update_choices by done.
    split; intros (Hj & Hid & k & x & H).
    + split; [done|]. split; [done|]. destruct H as [Hx Hv].
      pose proof (findExisting_Some _ _ _ _ Hx) as [Hk _].
      eexists k, x, _. split; [done|].
      by rewrite (shouldUpdate_run _ _ _ _ _ _ Hk), Hv.
    + split; [done|]. split; [done|]. destruct H as (w1 & Hx & Hv).
      pose proof (findExisting_Some _ _ _ _ Hx) as [Hk _].
      exists k, x. split; [done|].
      rewrite (shouldUpdate_run _ _ _ _ _ _ Hk) in Hv. congruence.
Qed.

Lemma checkDifferences_lists_witness :
  ∃ d w',
    checkDifferences Scenario.compareEqual [Scenario.ruleCategory5030]
      [Scenario.jackett1 [2000%Z]]
      (Scenario.world (Scenario.sonarr [Scenario.existing 1 7 [3000%Z]]))
    = Some (d, w')
    ∧ (∀ j, j ∈ Differences.add d ↔
            j ∈ [Scenario.jackett1 [2000%Z]]
            ∧ (JackettIndexer.id j
               ∉ serviceIdList (Scenario.sonarr [Scenario.existing 1 7 [3000%Z]]))
            ∧ shouldAdd [Scenario.ruleCategory5030]
                (Scenario.sonarr [Scenario.existing 1 7 [3000%Z]]) j = true)
    ∧ (∀ j, j ∈ Differences.update d ↔
            j ∈ [Scenario.jackett1 [2000%Z]]
            ∧ JackettIndexer.id j
              ∈ serviceIdList (Scenario.sonarr [Scenario.existing 1 7 [3000%Z]])
            ∧ ∃ k existing w1,
                findExisting [Scenario.existing 1 7 [3000%Z]]
                  (JackettIndexer.id j) = Some (k, existing)
                ∧ shouldUpdate Scenario.compareEqual
                    [Scenario.ruleCategory5030] k j
                    (Scenario.world
                       (Scenario.sonarr [Scenario.existing 1 7 [3000%Z]]))
                  = Some (true, w1)).
Proof.
  apply (checkDifferences_lists Scenario.compareEqual
           [Scenario.ruleCategory5030] [Scenario.jackett1 [2000%Z]]
           (Scenario.world (Scenario.sonarr [Scenario.existing 1 7 [3000%Z]]))).
  vm_compute. apply NoDup_singleton.
Defined.

(** Scenarios of the specification for the differ. *)
Example scenario_create :
  checkDifferences Scenario.compareEqual [] [Scenario.jackett1 [2000%Z]]
    (Scenario.world (Scenario.sonarr []))
  = Some ({| Differences.add := [Scenario.jackett1 [2000%Z]];
             Differences.update := [] |},
          Scenario.world (Scenario.sonarr [])).
Proof. reflexivity. Qed.

Example scenario_up_to_date :
  checkDifferences Scenario.compareEqual [] [Scenario.jackett1 [2000%Z]]
    (Scenario.world (Scenario.sonarr [Scenario.existing 1 7 [2000%Z]]))
  = Some ({| Differences.add := []; Differences.update := [] |},
          {| self := Scenario.sonarr [Scenario.existing 1 7 [2000%Z]];
             console := [SkippingUpdate SONARR (Some 1%Z)]; sent := [] |}).
Proof. reflexivity. Qed.

Example scenario_orphan :
  checkDifferences Scenario.compareEqual [] []
    (Scenario.world (Scenario.sonarr [Scenario.existing 5 7 [2000%Z]]))
  = Some ({| Differences.add := []; Differences.update := [] |},
          {| self := Scenario.sonarr [Scenario.existing 5 7 [2000%Z]];
             console := [NotInJackett SONARR 5%Z]; sent := [] |}).
Proof. reflexivity. Qed.

(** Outside the data model, when the source repeats an id: [find] returns
    the first record with that id, which then stands for the others. *)
Example scenario_repeated_id :
  checkDifferences Scenario.compareEqual []
    [Scenario.jackett1 []; Scenario.jackett1 [2000%Z]]
    (Scenario.world (Scenario.sonarr []))
  = Some ({| Differences.add := []; Differences.update := [] |},
          {| self := Scenario.sonarr [];
             console := [SkippingAdd SONARR 1%Z; SkippingAdd SONARR 1%Z];
             sent := [] |}).
Proof. reflexivity. Qed.

(** ** [shouldAdd] *)

Lemma ruleSelects_true this indexer r :
  ruleSelects this indexer r = true ↔
  (IndexSpecificRule.service r = ALL
   ∨ IndexSpecificRule.service r = Service.serviceName this)
  ∧ IndexSpecificRule.indexerId r = JackettIndexer.id indexer.
Proof.
  unfold ruleSelects.
  rewrite andb_true_iff, orb_true_iff, !bool_decide_eq_true.
  split; intros [? ?]; done.
Qed.

Lemma shouldAdd_true rules this indexer :
  shouldAdd rules this indexer = true ↔
  (∃ c, c ∈ JackettIndexer.categories indexer ∧ c ∈ Service.categories this)
  ∨ (∃ r, r ∈ rules
          ∧ (IndexSpecificRule.service r = ALL
             ∨ IndexSpecificRule.service r = Service.serviceName this)
          ∧ IndexSpecificRule.indexerId r = JackettIndexer.id indexer).
Proof.
  unfold shouldAdd, doesIndexerSpecificRuleApply.
  rewrite orb_true_iff, !existsb_exists.
  setoid_rewrite includes_true. setoid_rewrite <- list_elem_of_In.
  setoid_rewrite ruleSelects_true. done.
Qed.

(** C4: [shouldAdd] answers true exactly when the categories of the indexer
    meet those the consumer wants, or a rule scoped to [ALL] or to the
    consumer names the indexer; and a source indexer (ids unique within the
    fetch) the consumer does not hold, with no category the consumer wants
    but named by such a rule, is in the add list. *)
Theorem shouldAdd_iff compare rules jackettIndexers w indexer :
  (shouldAdd rules (self w) indexer = true ↔
   (∃ c, c ∈ JackettIndexer.categories indexer
         ∧ c ∈ Service.categories (self w))
   ∨ (∃ r, r ∈ rules
           ∧ (IndexSpecificRule.service r = ALL
              ∨ IndexSpecificRule.service r = Service.serviceName (self w))
           ∧ IndexSpecificRule.indexerId r = JackettIndexer.id indexer))
  ∧ (NoDup (idList jackettIndexers) →
     indexer ∈ jackettIndexers →
     JackettIndexer.id indexer ∉ serviceIdList (self w) →
     (∀ c, c ∈ JackettIndexer.categories indexer →
           c ∉ Service.categories (self w)) →
     (∃ r, r ∈ rules
           ∧ (IndexSpecificRule.service r = ALL
              ∨ IndexSpecificRule.service r = Service.serviceName (self w))
           ∧ IndexSpecificRule.indexerId r = JackettIndexer.id indexer) →
     ∃ d w', checkDifferences compare rules jackettIndexers w = Some (d, w')
             ∧ indexer ∈ Differences.add d).
Proof.
  split; [apply shouldAdd_true|].
  intros Hnd Hj Hid _ Hr.
  destruct (checkDifferences_exact compare rules jackettIndexers w Hnd)
    as (d & w' & Hrun & Hadd & _).
  exists d, w'. split; [done|]. rewrite Hadd.
  apply elem_of_add_choices; [done|]. split; [done|]. split; [done|].
  apply shouldAdd_true. by right.
Qed.

Lemma shouldAdd_iff_witness :
  ∃ d w',
    checkDifferences Scenario.compareEqual [Scenario.ruleCategory5030]
      [Scenario.jackett1 [3000%Z]] (Scenario.world (Scenario.sonarr []))
    = Some (d, w')
    ∧ Scenario.jackett1 [3000%Z] ∈ Differences.add d.
Proof.
  apply (proj2 (shouldAdd_iff Scenario.compareEqual
                  [Scenario.ruleCategory5030] [Scenario.jackett1 [3000%Z]]
                  (Scenario.world (Scenario.sonarr []))
                  (Scenario.jackett1 [3000%Z]))).
  - vm_compute. apply NoDup_singleton.
  - by apply list_elem_of_singleton.
  - vm_compute. apply not_elem_of_nil.
  - intros c ->%list_elem_of_singleton [=]%list_elem_of_singleton.
  - exists Scenario.ruleCategory5030.
    split; [by apply list_elem_of_singleton|]. split; [by left | reflexivity].
Defined.

(** ** What the equivalence check does to the stored record *)

Lemma elem_of_splices (cs : list (option Z)) (s : list Z) (x : Z) :
  x ∈ foldl spliceIfPresent s cs → x ∈ s.
Proof.
  revert s. induction cs as [|c cs IH]; intros s; [done|].
  simpl. intros H%IH. destruct c as [c|]; [|done].
  rewrite spliceIfPresent_Some in H. by eapply elem_of_removeFirst.
Qed.

Lemma splices_NoDup (cs : list (option Z)) (s : list Z) (c : Z) :
  NoDup s → Some c ∈ cs → c ∉ foldl spliceIfPresent s cs.
Proof.
  revert s. induction cs as [|c' cs IH]; intros s Hnd;
    [by intros ?%elem_of_nil|].
  intros Hc. cbn [foldl]. destruct c' as [c'|].
  - rewrite spliceIfPresent_Some.
    destruct (removeFirst_NoDup c' s Hnd) as [Hnd' Hout].
    apply elem_of_cons in Hc as [[= <-]|Hc]; [|by apply IH].
    intros ?%elem_of_splices. done.
  - apply elem_of_cons in Hc as [?|Hc]; [done|]. by apply IH.
Qed.

(** C9, as stated, fails: the rule below is selected and names the anime
    category 5070, yet after the check 5070 is still in the stored array,
    and the world is the one the check started in. *)
Lemma shouldUpdate_keeps_anime_category :
  let stored := Scenario.existing 1 7 [2000%Z; 5070%Z] in
  let w := Scenario.world (Scenario.sonarr [stored]) in
  ruleSelects (self w) (Scenario.jackett1 [2000%Z]) Scenario.ruleAnime5070
  = true
  ∧ IndexSpecificRule.animeCategory Scenario.ruleAnime5070 = Some 5070%Z
  ∧ shouldUpdate Scenario.compareEqual [Scenario.ruleAnime5070] 0
      (Scenario.jackett1 [2000%Z]) w
    = Some (true, w)
  ∧ Service.indexers (self w) !! 0 = Some stored
  ∧ 5070%Z ∈ Indexer.categories stored.
Proof.
  repeat split. apply elem_of_cons. right. by apply list_elem_of_singleton.
Qed.

(** The check does mutate the stored array when a selected rule names one
    of its categories. *)
Example shouldUpdate_strips_category :
  shouldUpdate Scenario.compareEqual [Scenario.ruleCategory5030] 0
    (Scenario.jackett1 [2000%Z])
    (Scenario.world
       (Scenario.sonarr [Scenario.existing 1 7 [2000%Z; 5030%Z]]))
  = Some (false,
          Scenario.world (Scenario.sonarr [Scenario.existing 1 7 [2000%Z]])).
Proof. reflexivity. Qed.

(** C9, amended: when the identity comparison finds the records equal,
    [shouldUpdate] replaces the stored categories of the existing indexer,
    in place, by the result of the reversal: for each selected rule in
    table order the first occurrence of its [category], if present, is
    spliced out (so none of them is left in an array without repetition);
    the [animeCategory] of a rule is not looked for in the stored array,
    and no other record changes.  When the comparison reports a difference
    the check mutates nothing. *)
Theorem shouldUpdate_mutates compare rules k indexer w current :
  Service.indexers (self w) !! k = Some current →
  ∃ b w', shouldUpdate compare rules k indexer w = Some (b, w')
    ∧ (compare current indexer = false → w' = w)
    ∧ (compare current indexer = true →
       let stored :=
         foldl spliceIfPresent (Indexer.categories current)
               (selectedCategories rules (self w) indexer) in
       Service.indexers (self w') !! k
       = Some (Indexer.withCategories current stored)
       ∧ (∀ k', k' ≠ k →
            Service.indexers (self w') !! k' = Service.indexers (self w) !! k')
       ∧ (NoDup (Indexer.categories current) →
          ∀ r c, r ∈ rules → ruleSelects (self w) indexer r = true →
                 IndexSpecificRule.category r = Some c → c ∉ stored)).
Proof.
  intros Hk. eexists _, _. split; [by apply shouldUpdate_run|].
  split; intros Hc; rewrite Hc; [done|].
  split; [|split].
  - simpl. rewrite list_lookup_alter_eq, Hk. simpl. do 2 f_equal.
    unfold reversedCategories.
    by rewrite undoIndexerSpecificConfiguration_split.
  - intros k' Hne. simpl. by apply list_lookup_alter_ne.
  - intros Hnd r c Hr Hs Hcat. apply splices_NoDup; [done|].
    apply elem_of_selectedCategories. eauto.
Qed.

Lemma shouldUpdate_mutates_witness :
  ∃ b w',
    shouldUpdate Scenario.compareEqual [Scenario.ruleCategory5030] 0
      (Scenario.jackett1 [2000%Z])
      (Scenario.world
         (Scenario.sonarr [Scenario.existing 1 7 [2000%Z; 5030%Z]]))
    = Some (b, w')
    ∧ Service.indexers (self w') !! 0
      = Some (Scenario.existing 1 7 [2000%Z]).
Proof.
  destruct (shouldUpdate_mutates Scenario.compareEqual
              [Scenario.ruleCategory5030] 0 (Scenario.jackett1 [2000%Z])
              (Scenario.world
                 (Scenario.sonarr [Scenario.existing 1 7 [2000%Z; 5030%Z]]))
              (Scenario.existing 1 7 [2000%Z; 5030%Z]) eq_refl)
    as (b & w' & Hrun & _ & Hmut).
  exists b, w'. split; [exact Hrun|].
  destruct (Hmut eq_refl) as [Hk _]. exact Hk.
Defined.

(** ** The requests of [sync] *)

Section SyncFacts.

Variable compare : Indexer.t -> JackettIndexer.t -> bool.
Variable rules : list IndexSpecificRule.t.
Variable net : Net.

(** What [handleRequest] does with a request that settled as [reply]: it
    prints the line of the reply, if any, and its promise is rejected
    exactly when its [catch] handler throws. *)
Lemma handleRequest_run (p : P Response) w reply w1 :
  p w = (reply, w1) →
  handleRequest p w
  = (settles reply,
     {| self := self w1;
        console := console w1
          ++ option_list (entryLine (Service.serviceName (self w1)) reply);
        sent := sent w1 |}).
Proof.
  intros Hp. unfold handleRequest, tryCatch, await. rewrite Hp.
  destruct reply as [response|error].
  - unfold liftM at 1, getThis, settles. simpl.
    destruct (hasData response); simpl.
    + destruct (status response =? 201)%Z; [done|].
      by destruct (status response =? 202)%Z.
    + done.
  - destruct error; simpl; [done| |done].
    rewrite app_nil_r. by destruct w1.
Qed.

Lemma addCallback_run indexer w :
  addCallback net indexer w
  = (settles (requestReply net (Post indexer)),
     {| self := self w;
        console := console w
          ++ option_list (entryLine (Service.serviceName (self w))
                                    (requestReply net (Post indexer)));
        sent := sent w ++ [Post indexer] |}).
Proof.
  unfold addCallback.
  by rewrite (handleRequest_run (add net indexer) w
                (requestReply net (Post indexer))
                {| self := self w; console := console w;
                   sent := sent w ++ [Post indexer] |} eq_refl).
Qed.

Lemma updateCallback_run indexer w existing :
  findById (Service.indexers (self w)) indexer = Some existing →
  updateCallback net indexer w
  = (settles (requestReply net (Put (Indexer.appId existing) indexer)),
     {| self := self w;
        console := console w
          ++ option_list
               (entryLine (Service.serviceName (self w))
                  (requestReply net (Put (Indexer.appId existing) indexer)));
        sent := sent w ++ [Put (Indexer.appId existing) indexer] |}).
Proof.
  intros Hf. unfold updateCallback, await at 1, liftM at 1, bind, getThis, deref.
  rewrite Hf. simpl.
  by rewrite (handleRequest_run (update net (Indexer.appId existing) indexer) w
                (requestReply net (Put (Indexer.appId existing) indexer))
                {| self := self w; console := console w;
                   sent := sent w ++ [Put (Indexer.appId existing) indexer] |}
                eq_refl).
Qed.

Lemma findById_Some indexers indexer existing :
  findById indexers indexer = Some existing →
  existing ∈ indexers
  ∧ Indexer.id existing = Some (JackettIndexer.id indexer).
Proof.
  intros [H1 H2]%find_some. split; [by apply list_elem_of_In|].
  by apply bool_decide_eq_true in H2.
Qed.

Lemma findById_is_Some this indexer :
  JackettIndexer.id indexer ∈ serviceIdList this →
  is_Some (findById (Service.indexers this) indexer).
Proof.
  intros (x & Hx & Hid)%elem_of_serviceIdList.
  destruct (findById (Service.indexers this) indexer) eqn:E; [done|].
  apply list_elem_of_In in Hx. apply (find_none _ _ E x) in Hx.
  apply bool_decide_eq_false in Hx. done.
Qed.

(** [Promise.all] over the promises of a batch. *)
Lemma promiseAll_settles (replies : list (Outcome Response)) :
  promiseAll (settles <$> replies)
  = if existsb handlerThrows replies then Rejected OtherError
    else Resolved (replicate (length replies) tt).
Proof.
  induction replies as [|reply replies IH]; [done|].
  rewrite fmap_cons. cbn [promiseAll existsb length replicate].
  unfold settles at 1. destruct (handlerThrows reply); [done|].
  simpl. rewrite IH. by destruct (existsb handlerThrows replies).
Qed.

Lemma omap_option_list_cons {A B} (f : A → option B) (x : A) (l : list A) :
  omap f (x :: l) = option_list (f x) ++ omap f l.
Proof. simpl. by destruct (f x). Qed.

Lemma omap_fmap_compose {A B C} (g : A → B) (f : B → option C)
    (l : list A) :
  omap f (g <$> l) = omap (fun x => f (g x)) l.
Proof.
  induction l as [|x l IH]; [done|].
  rewrite fmap_cons, !omap_option_list_cons. by rewrite IH.
Qed.

Lemma startAll_addCallback (l : list JackettIndexer.t) w :
  startAll (addCallback net) l w
  = ((fun indexer => settles (requestReply net (Post indexer))) <$> l,
     {| self := self w;
        console := console w
          ++ omap (fun indexer =>
                     entryLine (Service.serviceName (self w))
                               (requestReply net (Post indexer))) l;
        sent := sent w ++ (Post <$> l) |}).
Proof.
  revert w. induction l as [|x l IH]; intros w.
  - simpl. rewrite !app_nil_r. by destruct w.
  - cbn [startAll]. rewrite addCallback_run. cbn [fst snd]. rewrite IH.
    cbn [self console sent]. rewrite omap_option_list_cons, !fmap_cons.
    by rewrite <- !app_assoc.
Qed.

Lemma startAll_updateCallback (l : list JackettIndexer.t) w :
  (∀ u, u ∈ l → JackettIndexer.id u ∈ serviceIdList (self w)) →
  ∃ puts,
    Forall2 (putOf (Service.indexers (self w))) l puts
    ∧ startAll (updateCallback net) l w
      = ((fun r => settles (requestReply net r)) <$> puts,
         {| self := self w;
            console := console w
              ++ omap (fun r => entryLine (Service.serviceName (self w))
                                          (requestReply net r)) puts;
            sent := sent w ++ puts |}).
Proof.
  revert w. induction l as [|x l IH]; intros w Hl.
  - exists []. split; [constructor|]. simpl. rewrite !app_nil_r.
    by destruct w.
  - destruct (findById_is_Some (self w) x) as [existing He].
    { apply Hl, elem_of_cons. by left. }
    destruct (IH {| self := self w;
                    console := console w
                      ++ option_list
                           (entryLine (Service.serviceName (self w))
                              (requestReply net
                                 (Put (Indexer.appId existing) x)));
                    sent := sent w ++ [Put (Indexer.appId existing) x] |})
      as (puts & Hputs & Hrun).
    { intros u Hu. apply Hl, elem_of_cons. by right. }
    exists (Put (Indexer.appId existing) x :: puts). split.
    + constructor; [by exists existing | done].
    + cbn [startAll]. rewrite (updateCallback_run x w existing He).
      cbn [fst snd]. rewrite Hrun. cbn [self console sent].
      rewrite omap_option_list_cons, !fmap_cons.
      by rewrite <- !app_assoc.
Qed.

(** [sync]: it sends one POST for each entry of the add list, then one PUT
    for each entry of the update list, whatever the application answers;
    the console gets the line of each reply; and its promise is rejected
    exactly when the [catch] handler of [handleRequest] throws on one of
    the replies. *)
Lemma sync_run jackettIndexers w :
  ∃ d w1 puts,
    checkDifferences compare rules jackettIndexers w = Some (d, w1)
    ∧ Forall2 (putOf (Service.indexers (self w1))) (Differences.update d) puts
    ∧ sync compare rules net jackettIndexers w
      = (if existsb (fun r => handlerThrows (requestReply net r))
                    ((Post <$> Differences.add d) ++ puts)
         then Rejected OtherError
         else Resolved (replicate (length (Differences.update d)) tt),
         {| self := self w1;
            console := console w1
              ++ omap (fun r => entryLine (Service.serviceName (self w1))
                                          (requestReply net r))
                      ((Post <$> Differences.add d) ++ puts);
            sent := sent w ++ (Post <$> Differences.add d) ++ puts |}).
Proof.
  destruct (checkDifferences_total compare rules jackettIndexers w)
    as (d & w1 & Hrun & Hshape & Hsent & _ & Hupd & _).
  destruct (startAll_updateCallback (Differences.update d)
              {| self := self w1;
                 console := console w1
                   ++ omap (fun indexer =>
                              entryLine (Service.serviceName (self w1))
                                        (requestReply net (Post indexer)))
                           (Differences.add d);
                 sent := sent w1 ++ (Post <$> Differences.add d) |})
    as (puts & Hputs & Hput).
  { intros u Hu. simpl. rewrite (sameShape_serviceIdList _ _ Hshape).
    apply Hupd in Hu as [_ Hu]. by apply same_spec in Hu as [_ ?]. }
  exists d, w1, puts. split; [done|]. split; [exact Hputs|].
  unfold sync, await, liftM. rewrite Hrun, startAll_addCallback.
  cbn [fst snd]. rewrite Hput. cbn [fst snd self console sent].
  rewrite omap_app, existsb_app, Hsent, <- !app_assoc.
  rewrite (omap_fmap_compose Post).
  f_equal.
  replace ((fun indexer => settles (requestReply net (Post indexer)))
           <$> Differences.add d)
    with (settles <$> (requestReply net <$> (Post <$> Differences.add d)))
    by (rewrite <- !list_fmap_compose; done).
  replace ((fun r => settles (requestReply net r)) <$> puts)
    with (settles <$> (requestReply net <$> puts))
    by (rewrite <- list_fmap_compose; done).
  rewrite !promiseAll_settles.
  assert (∀ l : list Request,
            existsb handlerThrows (requestReply net <$> l)
            = existsb (fun r => handlerThrows (requestReply net r)) l) as Hex.
  { induction l as [|r l IH]; [done|]. rewrite fmap_cons. simpl.
    by rewrite IH. }
  rewrite !Hex, !length_fmap.
  destruct (existsb _ (Post <$> Differences.add d)); [done|].
  simpl. destruct (existsb _ puts); [done|].
  by rewrite (Forall2_length _ _ _ Hputs).
Qed.

End SyncFacts.

(** ** Orphans and the address of an update *)

Lemma add_choice_from_source rules jackettIndexers this (ids : list Z) j :
  j ∈ filterNotEmpty (addChoice rules jackettIndexers this <$> ids) →
  j ∈ jackettIndexers.
Proof.
  rewrite elem_of_filterNotEmpty, list_elem_of_fmap.
  intros (id & Hc & _). unfold addChoice in Hc.
  destruct (findJackett jackettIndexers id) as [j'|] eqn:Hj; [|done].
  destruct (shouldAdd rules this j'); [|done].
  injection Hc as ->. by apply findJackett_Some in Hj as [? _].
Qed.

Lemma putOf_inv indexers (l : list JackettIndexer.t) (puts : list Request) r :
  Forall2 (putOf indexers) l puts → r ∈ puts →
  ∃ u existing, u ∈ l ∧ existing ∈ indexers
    ∧ Indexer.id existing = Some (JackettIndexer.id u)
    ∧ r = Put (Indexer.appId existing) u.
Proof.
  induction 1 as [|u p l puts (existing & Hf & ->) _ IH];
    [by intros ?%elem_of_nil|].
  intros [->|Hr]%elem_of_cons.
  - apply findById_Some in Hf as [? ?]. exists u, existing.
    split; [apply elem_of_cons; by left | done].
  - destruct (IH Hr) as (u' & e' & ? & ?). exists u', e'.
    split; [apply elem_of_cons; by right | done].
Qed.

(** C5: an id the consumer holds and the source does not is the id of no
    entry of the add list or of the update list, no request of [sync]
    carries an indexer with that id or is addressed to a record with that
    id, and the id is printed as one to remove by hand. *)
Theorem orphans_untouched compare rules net jackettIndexers w (id : Z) :
  id ∈ serviceIdList (self w) → id ∉ idList jackettIndexers →
  ∃ d w1 out w' requests,
    checkDifferences compare rules jackettIndexers w = Some (d, w1)
    ∧ sync compare rules net jackettIndexers w = (out, w')
    ∧ (∀ j, j ∈ Differences.add d ++ Differences.update d →
            JackettIndexer.id j ≠ id)
    ∧ sent w' = sent w ++ requests
    ∧ (∀ r, r ∈ requests → JackettIndexer.id (requestIndexer r) ≠ id)
    ∧ (∀ appId j, Put appId j ∈ requests →
         ∃ existing, existing ∈ Service.indexers (self w1)
                     ∧ appId = Indexer.appId existing
                     ∧ Indexer.id existing ≠ Some id)
    ∧ NotInJackett (Service.serviceName (self w)) id ∈ console w'.
Proof.
  intros Hsvc Hsrc.
  destruct (sync_run compare rules net jackettIndexers w)
    as (d & w1 & puts & Hrun & Hputs & Hsync).
  destruct (checkDifferences_total compare rules jackettIndexers w)
    as (d' & w1' & Hrun' & _ & _ & Hadd & Hupd & lines0 & Hcons).
  rewrite Hrun in Hrun'. injection Hrun' as <- <-.
  assert (∀ j, j ∈ Differences.add d ++ Differences.update d →
               JackettIndexer.id j ≠ id) as Hids.
  { intros j Hj <-. apply Hsrc, elem_of_idList. exists j. split; [|done].
    apply elem_of_app in Hj as [Hj|Hj].
    - rewrite Hadd in Hj. by eapply add_choice_from_source.
    - by apply Hupd in Hj as [? _]. }
  eexists d, w1, _, _, (_ ++ puts). split; [done|]. split; [exact Hsync|].
  split; [done|]. split; [done|]. split; [|split].
  - intros r [Hr|Hr]%elem_of_app.
    + apply list_elem_of_fmap in Hr as (j & -> & Hj). simpl.
      apply Hids, elem_of_app. by left.
    + destruct (putOf_inv _ _ _ _ Hputs Hr) as (u & e & Hu & _ & _ & ->).
      simpl. apply Hids, elem_of_app. by right.
  - intros appId j [Hr|Hr]%elem_of_app.
    + by apply list_elem_of_fmap in Hr as (j' & [=] & _).
    + destruct (putOf_inv _ _ _ _ Hputs Hr) as (u & e & Hu & He & Hid & [= -> ->]).
      exists e. split; [done|]. split; [done|]. rewrite Hid. intros [= Heq].
      apply (Hids u); [apply elem_of_app; by right | done].
  - cbn [console]. rewrite Hcons. apply elem_of_app. left.
    apply elem_of_app. right.
    apply list_elem_of_fmap_2. by apply notInJackett_spec.
Qed.

Lemma orphans_untouched_witness :
  ∃ d w1 out w' requests,
    checkDifferences Scenario.compareEqual [] [Scenario.jackett1 [2000%Z]]
      (Scenario.world (Scenario.sonarr [Scenario.existing 5 7 [2000%Z]]))
    = Some (d, w1)
    ∧ sync Scenario.compareEqual [] Scenario.accepting
        [Scenario.jackett1 [2000%Z]]
        (Scenario.world (Scenario.sonarr [Scenario.existing 5 7 [2000%Z]]))
      = (out, w')
    ∧ (∀ j, j ∈ Differences.add d ++ Differences.update d →
            JackettIndexer.id j ≠ 5%Z)
    ∧ sent w' = [] ++ requests
    ∧ (∀ r, r ∈ requests → JackettIndexer.id (requestIndexer r) ≠ 5%Z)
    ∧ (∀ appId j, Put appId j ∈ requests →
         ∃ existing, existing ∈ Service.indexers (self w1)
                     ∧ appId = Indexer.appId existing
                     ∧ Indexer.id existing ≠ Some 5%Z)
    ∧ NotInJackett SONARR 5%Z ∈ console w'.
Proof.
  apply (orphans_untouched Scenario.compareEqual [] Scenario.accepting
           [Scenario.jackett1 [2000%Z]]
           (Scenario.world (Scenario.sonarr [Scenario.existing 5 7 [2000%Z]]))
           5%Z).
  - vm_compute. by apply list_elem_of_singleton.
  - vm_compute. intros [=]%list_elem_of_singleton.
Defined.

(** C10: for every entry of the update list the consumer holds a record
    with the id of the entry, so the lookup of [sync] finds one, and the
    PUT of the entry is sent, addressed with the [appId] of a record the
    consumer holds under that id.  When the promise of [sync] is rejected,
    that is not by the lookup: the application answered one of the requests
    sent with an error whose body is [null]. *)
Theorem update_lookup_succeeds compare rules net jackettIndexers w :
  ∃ d w1 out w' puts,
    checkDifferences compare rules jackettIndexers w = Some (d, w1)
    ∧ sync compare rules net jackettIndexers w = (out, w')
    ∧ (∀ indexer, indexer ∈ Differences.update d →
         ∃ existing,
           findById (Service.indexers (self w1)) indexer = Some existing
           ∧ existing ∈ Service.indexers (self w1)
           ∧ Indexer.id existing = Some (JackettIndexer.id indexer))
    ∧ sent w' = sent w ++ (Post <$> Differences.add d) ++ puts
    ∧ Forall2 (fun indexer r =>
                 ∃ existing, existing ∈ Service.indexers (self w1)
                   ∧ Indexer.id existing = Some (JackettIndexer.id indexer)
                   ∧ r = Put (Indexer.appId existing) indexer)
              (Differences.update d) puts
    ∧ (∀ error, out = Rejected error →
       ∃ r status, r ∈ (Post <$> Differences.add d) ++ puts
                   ∧ requestReply net r = Rejected (HttpErrorNullBody status)).
Proof.
  destruct (sync_run compare rules net jackettIndexers w)
    as (d & w1 & puts & Hrun & Hputs & Hsync).
  destruct (checkDifferences_total compare rules jackettIndexers w)
    as (d' & w1' & Hrun' & Hshape & _ & _ & Hupd & _).
  rewrite Hrun in Hrun'. injection Hrun' as <- <-.
  eexists d, w1, _, _, puts. split; [done|]. split; [exact Hsync|].
  split; [|split; [done|split]].
  - intros u Hu. apply Hupd in Hu as [_ [_ Hu]%same_spec].
    rewrite <- (sameShape_serviceIdList _ _ Hshape) in Hu.
    destruct (findById_is_Some _ _ Hu) as [existing He].
    exists existing. split; [done|]. by apply findById_Some.
  - eapply Forall2_impl; [exact Hputs|].
    intros u r (existing & He & ->). exists existing.
    apply findById_Some in He as [? ?]. done.
  - destruct (existsb _ _) eqn:Hex; [|done]. intros error _.
    apply existsb_exists in Hex as (r & Hr%list_elem_of_In & Hthrows).
    unfold handlerThrows in Hthrows.
    destruct (requestReply net r) as [?|[]] eqn:Hreply; try done.
    by eexists r, _.
Qed.

(** ** The driver *)

(** A [try] whose handler only prints does not reject, whatever its body
    does. *)
Lemma tryCatch_resolves (body : P unit) (handler : Failure → P unit) w :
  (∀ error w1, ∃ w2, handler error w1 = (Resolved tt, w2)) →
  ∃ w', tryCatch body handler w = (Resolved tt, w').
Proof.
  intros Hh. unfold tryCatch. destruct (body w) as [[[]|error] w1]; eauto.
Qed.

Lemma Main_sync_resolves compare rules net jackettIndexers w :
  ∃ w', Main.sync compare rules net jackettIndexers w = (Resolved tt, w').
Proof. apply tryCatch_resolves. intros error w1. by eexists. Qed.

Lemma Main_syncCallback_run compare rules net jackettIndexers w :
  Main.syncCallback compare rules jackettIndexers net w
  = (Resolved tt, (Main.sync compare rules net jackettIndexers w).2).
Proof.
  unfold Main.syncCallback, tryCatch.
  destruct (Main_sync_resolves compare rules net jackettIndexers w) as [w' ->].
  done.
Qed.

Lemma getIndexers_rejected net error w :
  indexerReply net = Rejected error →
  ∃ line, getIndexers net w
          = (Rejected error,
             {| self := self w; console := console w ++ [line];
                sent := sent w |}).
Proof.
  intros H. unfold getIndexers, handleIndexersRequest, await, tryCatch.
  rewrite H. simpl. by eexists.
Qed.

(** A consumer whose system url or indexer url cannot be read: the failure
    is printed, and nothing is sent. *)
Lemma Main_sync_unreachable compare rules net jackettIndexers service error :
  systemReply net = Rejected error ∨ indexerReply net = Rejected error →
  ∃ lines,
    Main.sync compare rules net jackettIndexers (Main.fresh service)
    = (Resolved tt,
       {| self := service;
          console := lines ++ [Failed (Service.serviceName service)];
          sent := [] |}).
Proof.
  intros H. unfold Main.sync, tryCatch, await at 1, validate.
  destruct (systemReply net) as [response|error'] eqn:Hsys.
  - destruct H as [?|Hix]; [done|].
    unfold await at 1, liftM at 1, getThis. unfold await at 1.
    destruct (hasData response).
    + simpl. unfold await at 1.
      destruct (getIndexers_rejected net error
                  {| self := service;
                     console := [TestedUrlAndApiKey
                                   (Service.serviceName service)];
                     sent := [] |} Hix) as [line ->].
      simpl. by eexists [_; _].
    + simpl. by exists [].
  - simpl. by exists [].
Qed.

(** C8: the code at the input where it departs from the claim.  The
    application creates indexer 1 and answers the POST of indexer 2 with
    status 400 and the body [null].  Both POSTs are sent and the line of the
    first is printed, but the [catch] handler of [handleRequest] throws on
    the second reply: no line is printed for the failed entry and the
    promise of [sync] is rejected; [sync] of [main.ts] catches that and
    prints its own line instead of "Sync is done". *)
Theorem null_body_escapes_handleRequest :
  sync Scenario.compareEqual [] Scenario.refusingOthersWithNull
    [Scenario.jackett1 [2000%Z]; Scenario.jackett2 [2000%Z]]
    (Scenario.world (Scenario.sonarr []))
  = (Rejected OtherError,
     {| self := Scenario.sonarr [];
        console := [AddedSuccessfully SONARR];
        sent := [Post (Scenario.jackett1 [2000%Z]);
                 Post (Scenario.jackett2 [2000%Z])] |})
  ∧ Main.sync Scenario.compareEqual [] Scenario.refusingOthersWithNull
      [Scenario.jackett1 [2000%Z]; Scenario.jackett2 [2000%Z]]
      (Main.fresh (Scenario.sonarr []))
    = (Resolved tt,
       {| self := Scenario.sonarr [];
          console := [TestedUrlAndApiKey SONARR; StartingSync SONARR;
                      AddedSuccessfully SONARR; Failed SONARR];
          sent := [Post (Scenario.jackett1 [2000%Z]);
                   Post (Scenario.jackett2 [2000%Z])] |}).
Proof. split; reflexivity. Qed.

(** The same replies with a body that can be indexed: the failed entry
    gets its line and the service is reported as done. *)
Example indexable_body_is_logged :
  Main.sync Scenario.compareEqual []
    {| systemReply := Resolved {| status := 200; hasData := true |};
       indexerReply := Resolved [];
       requestReply := fun r =>
         if (JackettIndexer.id (requestIndexer r) =? 1)%Z
         then Resolved {| status := 201; hasData := true |}
         else Rejected (HttpError 400) |}
    [Scenario.jackett1 [2000%Z]; Scenario.jackett2 [2000%Z]]
    (Main.fresh (Scenario.sonarr []))
  = (Resolved tt,
     {| self := Scenario.sonarr [];
        console := [TestedUrlAndApiKey SONARR; StartingSync SONARR;
                    AddedSuccessfully SONARR; SomethingWentWrong SONARR 400;
                    SyncIsDone SONARR];
        sent := [Post (Scenario.jackett1 [2000%Z]);
                 Post (Scenario.jackett2 [2000%Z])] |}).
Proof. reflexivity. Qed.

(** One service cannot be reached, the other accepts: the first prints its
    failure, the second creates the indexer. *)
Example start_scenario :
  Main.start Scenario.compareEqual []
    (Resolved [Scenario.jackett1 [2000%Z]])
    [(Scenario.sonarr [], Scenario.unreachable);
     (Scenario.sonarr [], Scenario.accepting)]
  = Main.Completed
      [ {| self := Scenario.sonarr []; console := [Failed SONARR];
           sent := [] |};
        {| self := Scenario.sonarr [];
           console := [TestedUrlAndApiKey SONARR; StartingSync SONARR;
                       AddedSuccessfully SONARR; SyncIsDone SONARR];
           sent := [Post (Scenario.jackett1 [2000%Z])] |} ].
Proof. reflexivity. Qed.

(** ** More on the override rules *)

Lemma sublist_removeFirst (x : Z) (l : list Z) :
  removeFirst x l `sublist_of` l.
Proof.
  induction l as [|y l IH]; [done|]. simpl.
  destruct (y =? x)%Z; [by apply sublist_cons | by apply sublist_skip].
Qed.

Lemma sublist_spliceIfPresent (s : list Z) (c : option Z) :
  spliceIfPresent s c `sublist_of` s.
Proof.
  destruct c as [c|]; [|done].
  rewrite spliceIfPresent_Some. apply sublist_removeFirst.
Qed.

Lemma sublist_splices (cs : list (option Z)) (s : list Z) :
  foldl spliceIfPresent s cs `sublist_of` s.
Proof.
  revert s. induction cs as [|c cs IH]; intros s; [done|].
  simpl. etrans; [apply IH | apply sublist_spliceIfPresent].
Qed.

Lemma length_spliceIfPresent_lower (s : list Z) (c : option Z) :
  length s ≤ S (length (spliceIfPresent s c)).
Proof.
  destruct c as [c|]; [|simpl; lia]. rewrite spliceIfPresent_Some.
  destruct (decide (c ∈ s)) as [H|H].
  - apply length_removeFirst in H. lia.
  - rewrite removeFirst_absent by done. lia.
Qed.

Lemma length_splices_lower (cs : list (option Z)) (s : list Z) :
  length s ≤ length (foldl spliceIfPresent s cs) + length cs.
Proof.
  revert s. induction cs as [|c cs IH]; intros s; [simpl; lia|].
  simpl. pose proof (IH (spliceIfPresent s c)).
  pose proof (length_spliceIfPresent_lower s c). lia.
Qed.

Lemma NoDup_splices (cs : list (option Z)) (s : list Z) :
  NoDup s → NoDup (foldl spliceIfPresent s cs).
Proof. intros H. eapply sublist_NoDup; [done | apply sublist_splices]. Qed.

(** X1: the application only appends.  Each collection stays as a prefix of
    its result; what is added has no repetition, was not in the collection,
    and is named by a rule selected for the consumer and the indexer; and
    everything such a rule names is in the result. *)
Theorem application_appends rules this indexer (C A : list Z) :
  ∃ dc da,
    indexerSpecificConfiguration rules this indexer C A = (C ++ dc, A ++ da)
    ∧ NoDup dc ∧ NoDup da
    ∧ (∀ c, c ∈ dc →
         (c ∉ C) ∧ ∃ r, r ∈ rules ∧ ruleSelects this indexer r = true
                        ∧ IndexSpecificRule.category r = Some c)
    ∧ (∀ c, c ∈ da →
         (c ∉ A) ∧ ∃ r, r ∈ rules ∧ ruleSelects this indexer r = true
                        ∧ IndexSpecificRule.animeCategory r = Some c)
    ∧ (∀ r, r ∈ rules → ruleSelects this indexer r = true →
         (∀ c, IndexSpecificRule.category r = Some c → c ∈ C ++ dc)
         ∧ (∀ c, IndexSpecificRule.animeCategory r = Some c → c ∈ A ++ da)).
Proof.
  rewrite indexerSpecificConfiguration_split.
  destruct (pushes_shape (selectedCategories rules this indexer) C)
    as (dc & Hc & Hndc & Hdc).
  destruct (pushes_shape (selectedAnimeCategories rules this indexer) A)
    as (da & Ha & Hnda & Hda).
  exists dc, da. rewrite Hc, Ha. split; [done|].
  split; [done|]. split; [done|]. split; [|split].
  - intros c [Hsel Hout]%Hdc. split; [done|].
    by apply elem_of_selectedCategories.
  - intros c [Hsel Hout]%Hda. split; [done|].
    by apply elem_of_selectedAnimeCategories.
  - intros r Hr Hs. split; intros c Hcat.
    + rewrite <- Hc. apply pushes_contain, elem_of_selectedCategories. eauto.
    + rewrite <- Ha.
      apply pushes_contain, elem_of_selectedAnimeCategories. eauto.
Qed.

(** X2: the reversal only removes.  Each result is a sublist of the
    collection it was given (the order of what stays is kept), and at most
    one element goes for each rule of the table. *)
Theorem reversal_removes rules this indexer (C A : list Z) :
  (undoIndexerSpecificConfiguration rules this indexer C A).1 `sublist_of` C
  ∧ (undoIndexerSpecificConfiguration rules this indexer C A).2 `sublist_of` A
  ∧ length C
    ≤ length (undoIndexerSpecificConfiguration rules this indexer C A).1
      + length rules
  ∧ length A
    ≤ length (undoIndexerSpecificConfiguration rules this indexer C A).2
      + length rules.
Proof.
  rewrite undoIndexerSpecificConfiguration_split. simpl.
  assert (length (List.filter (ruleSelects this indexer) rules)
          ≤ length rules) as Hlen.
  { induction rules as [|r rs IH]; [done|]. simpl.
    destruct (ruleSelects this indexer r); simpl; lia. }
  split; [apply sublist_splices|]. split; [apply sublist_splices|].
  split.
  - pose proof (length_splices_lower
                  (selectedCategories rules this indexer) C) as H.
    unfold selectedCategories in H at 2. rewrite length_fmap in H. lia.
  - pose proof (length_splices_lower
                  (selectedAnimeCategories rules this indexer) A) as H.
    unfold selectedAnimeCategories in H at 2. rewrite length_fmap in H. lia.
Qed.

(** X3: when no rule of the table is selected for the consumer and the
    indexer, the application and the reversal leave both collections as
    they are, and [doesIndexerSpecificRuleApply] answers false. *)
Theorem rules_for_others_are_ignored rules this indexer (C A : list Z) :
  (∀ r, r ∈ rules →
        ¬ ((IndexSpecificRule.service r = ALL
            ∨ IndexSpecificRule.service r = Service.serviceName this)
           ∧ IndexSpecificRule.indexerId r = JackettIndexer.id indexer)) →
  indexerSpecificConfiguration rules this indexer C A = (C, A)
  ∧ undoIndexerSpecificConfiguration rules this indexer C A = (C, A)
  ∧ doesIndexerSpecificRuleApply rules this indexer = false.
Proof.
  intros Hnone.
  assert (List.filter (ruleSelects this indexer) rules = []) as Hfil.
  { induction rules as [|r rs IH]; [done|]. simpl.
    destruct (ruleSelects this indexer r) eqn:E.
    - apply ruleSelects_true in E. destruct (Hnone r); [|done].
      apply elem_of_cons. by left.
    - apply IH. intros r' Hr'. apply Hnone, elem_of_cons. by right. }
  rewrite indexerSpecificConfiguration_split,
    undoIndexerSpecificConfiguration_split.
  unfold selectedCategories, selectedAnimeCategories. rewrite Hfil.
  split; [done|]. split; [done|].
  unfold doesIndexerSpecificRuleApply.
  apply not_true_iff_false. rewrite existsb_exists.
  intros (r & Hr%list_elem_of_In & Hs%ruleSelects_true). by apply (Hnone r).
Qed.

Lemma rules_for_others_are_ignored_witness :
  indexerSpecificConfiguration [Scenario.ruleCategory5030]
    (Scenario.sonarr [])
    {| JackettIndexer.id := 2; JackettIndexer.categories := [2000%Z] |}
    [2000%Z] []
  = ([2000%Z], [])
  ∧ undoIndexerSpecificConfiguration [Scenario.ruleCategory5030]
      (Scenario.sonarr [])
      {| JackettIndexer.id := 2; JackettIndexer.categories := [2000%Z] |}
      [2000%Z] []
    = ([2000%Z], [])
  ∧ doesIndexerSpecificRuleApply [Scenario.ruleCategory5030]
      (Scenario.sonarr [])
      {| JackettIndexer.id := 2; JackettIndexer.categories := [2000%Z] |}
    = false.
Proof.
  apply rules_for_others_are_ignored.
  intros r ->%list_elem_of_singleton [_ Hid]. simpl in Hid. lia.
Defined.

(** X4: on collections without repetition the reversal is idempotent:
    reversing what a reversal left changes nothing. *)
Theorem reversal_idempotent rules this indexer (C A : list Z) :
  NoDup C → NoDup A →
  undoIndexerSpecificConfiguration rules this indexer
    (undoIndexerSpecificConfiguration rules this indexer C A).1
    (undoIndexerSpecificConfiguration rules this indexer C A).2
  = undoIndexerSpecificConfiguration rules this indexer C A.
Proof.
  intros HC HA. rewrite !undoIndexerSpecificConfiguration_split. simpl.
  f_equal; apply splices_fixed; intros x Hx; by apply splices_NoDup.
Qed.

Lemma reversal_idempotent_witness :
  undoIndexerSpecificConfiguration [Scenario.ruleCategory5030]
    (Scenario.sonarr []) (Scenario.jackett1 [2000%Z])
    (undoIndexerSpecificConfiguration [Scenario.ruleCategory5030]
       (Scenario.sonarr []) (Scenario.jackett1 [2000%Z])
       [2000%Z; 5030%Z] []).1
    (undoIndexerSpecificConfiguration [Scenario.ruleCategory5030]
       (Scenario.sonarr []) (Scenario.jackett1 [2000%Z])
       [2000%Z; 5030%Z] []).2
  = undoIndexerSpecificConfiguration [Scenario.ruleCategory5030]
      (Scenario.sonarr []) (Scenario.jackett1 [2000%Z]) [2000%Z; 5030%Z] [].
Proof.
  apply reversal_idempotent.
  - apply NoDup_cons. split; [|apply NoDup_singleton].
    intros [=]%list_elem_of_singleton.
  - apply NoDup_nil_2.
Defined.

(** With a repeated element the reversal is not idempotent. *)
Example reversal_repeated_element :
  (undoIndexerSpecificConfiguration [Scenario.ruleCategory5030]
     (Scenario.sonarr []) (Scenario.jackett1 []) [5030%Z; 5030%Z] []).1
  = [5030%Z]
  ∧ (undoIndexerSpecificConfiguration [Scenario.ruleCategory5030]
       (Scenario.sonarr []) (Scenario.jackett1 []) [5030%Z] []).1
    = [].
Proof. split; reflexivity. Qed.

(** ** The check on a record the application produced *)

(** X5: a stored array that is the application of the rules to the
    available categories, none of which is named by a selected rule, is
    reversed by the check to exactly the available categories, which are
    then compared with themselves. *)
Theorem check_undoes_application rules k indexer w current (A : list Z) :
  Service.indexers (self w) !! k = Some current →
  Indexer.categories current
  = (indexerSpecificConfiguration rules (self w) indexer
       (List.filter (includes (JackettIndexer.categories indexer))
                    (Service.categories (self w))) A).1 →
  (∀ r c, r ∈ rules → ruleSelects (self w) indexer r = true →
          IndexSpecificRule.category r = Some c →
          ¬ (c ∈ Service.categories (self w)
             ∧ c ∈ JackettIndexer.categories indexer)) →
  ∃ w', containsAllWantedCategories rules k indexer w
        = Some (arrayEquals
                  (List.filter (includes (JackettIndexer.categories indexer))
                               (Service.categories (self w)))
                  (List.filter (includes (JackettIndexer.categories indexer))
                               (Service.categories (self w))),
                w')
    ∧ Service.indexers (self w') !! k
      = Some (Indexer.withCategories current
                (List.filter (includes (JackettIndexer.categories indexer))
                             (Service.categories (self w)))).
Proof.
  intros Hk Hstored Hfree.
  assert (reversedCategories rules (self w) current indexer
          = availableCategories (self w) indexer) as Hrev.
  { unfold reversedCategories. rewrite Hstored.
    rewrite indexerSpecificConfiguration_split. simpl.
    rewrite undoIndexerSpecificConfiguration_split. simpl.
    rewrite splices_after_pushes. apply splices_fixed.
    intros c (r & Hr & Hs & Hc)%elem_of_selectedCategories.
    rewrite elem_of_availableCategories. eauto. }
  eexists. rewrite (containsAllWantedCategories_run rules _ _ _ _ Hk).
  rewrite Hrev. split; [reflexivity|].
  simpl. rewrite list_lookup_alter_eq, Hk. simpl. by rewrite Hrev.
Qed.

Lemma check_undoes_application_witness :
  ∃ w',
    containsAllWantedCategories [Scenario.ruleCategory5030] 0
      (Scenario.jackett1 [2000%Z])
      (Scenario.world
         (Scenario.sonarr [Scenario.existing 1 7 [2000%Z; 5030%Z]]))
    = Some (arrayEquals [2000%Z] [2000%Z], w')
    ∧ Service.indexers (self w') !! 0 = Some (Scenario.existing 1 7 [2000%Z]).
Proof.
  apply (check_undoes_application [Scenario.ruleCategory5030] 0
           (Scenario.jackett1 [2000%Z])
           (Scenario.world
              (Scenario.sonarr [Scenario.existing 1 7 [2000%Z; 5030%Z]]))
           (Scenario.existing 1 7 [2000%Z; 5030%Z]) []).
  - reflexivity.
  - reflexivity.
  - intros r c ->%list_elem_of_singleton _ [= <-] [Hc _].
    by apply list_elem_of_singleton in Hc.
Defined.

(** X6: when a selected rule names one of the available categories, the
    check reverses the same stored array to fewer elements than the
    available categories it is compared with. *)
Theorem check_overshoots_on_overlap rules k indexer w current (A : list Z) r c :
  Service.indexers (self w) !! k = Some current →
  Indexer.categories current
  = (indexerSpecificConfiguration rules (self w) indexer
       (List.filter (includes (JackettIndexer.categories indexer))
                    (Service.categories (self w))) A).1 →
  r ∈ rules → ruleSelects (self w) indexer r = true →
  IndexSpecificRule.category r = Some c →
  c ∈ Service.categories (self w) → c ∈ JackettIndexer.categories indexer →
  ∃ w' stored,
    containsAllWantedCategories rules k indexer w
    = Some (arrayEquals stored
              (List.filter (includes (JackettIndexer.categories indexer))
                           (Service.categories (self w))),
            w')
    ∧ Service.indexers (self w') !! k
      = Some (Indexer.withCategories current stored)
    ∧ length stored
      < length (List.filter (includes (JackettIndexer.categories indexer))
                            (Service.categories (self w))).
Proof.
  intros Hk Hstored Hr Hs Hc Hwanted Hsource.
  exists (worldAfterCheck rules k current indexer w),
    (reversedCategories rules (self w) current indexer).
  split; [by apply containsAllWantedCategories_run|]. split.
  - simpl. by rewrite list_lookup_alter_eq, Hk.
  - unfold reversedCategories. rewrite Hstored.
    rewrite indexerSpecificConfiguration_split. simpl.
    rewrite undoIndexerSpecificConfiguration_split. simpl.
    rewrite splices_after_pushes. apply (splices_shorten _ _ c).
    + apply elem_of_selectedCategories. eauto.
    + by apply elem_of_availableCategories.
Qed.

Lemma check_overshoots_on_overlap_witness :
  ∃ w' stored,
    containsAllWantedCategories
      [{| IndexSpecificRule.service := ALL; IndexSpecificRule.indexerId := 1;
          IndexSpecificRule.category := Some 2000%Z;
          IndexSpecificRule.animeCategory := None |}] 0
      (Scenario.jackett1 [2000%Z])
      (Scenario.world (Scenario.sonarr [Scenario.existing 1 7 [2000%Z]]))
    = Some (arrayEquals stored [2000%Z], w')
    ∧ Service.indexers (self w') !! 0
      = Some (Indexer.withCategories (Scenario.existing 1 7 [2000%Z]) stored)
    ∧ length stored < length [2000%Z].
Proof.
  apply (check_overshoots_on_overlap _ 0 (Scenario.jackett1 [2000%Z])
           (Scenario.world (Scenario.sonarr [Scenario.existing 1 7 [2000%Z]]))
           (Scenario.existing 1 7 [2000%Z]) []
           {| IndexSpecificRule.service := ALL;
              IndexSpecificRule.indexerId := 1;
              IndexSpecificRule.category := Some 2000%Z;
              IndexSpecificRule.animeCategory := None |} 2000%Z).
  - reflexivity.
  - reflexivity.
  - by apply list_elem_of_singleton.
  - reflexivity.
  - reflexivity.
  - by apply list_elem_of_singleton.
  - by apply list_elem_of_singleton.
Defined.

(** ** The frame and the console of the differ *)

Lemma trimmed_refl x : trimmed x x.
Proof. by repeat split. Qed.

Lemma trimmed_trans x y z : trimmed x y → trimmed y z → trimmed x z.
Proof.
  intros (?&?&?) (?&?&?). repeat split; [congruence..|]. by etrans.
Qed.

Lemma checked_refl s : checked s s.
Proof.
  repeat split. apply Forall_Forall2_diag, Forall_forall.
  intros x _. apply trimmed_refl.
Qed.

Lemma Forall2_trimmed_trans l1 l2 l3 :
  Forall2 trimmed l1 l2 → Forall2 trimmed l2 l3 → Forall2 trimmed l1 l3.
Proof.
  intros H. revert l3. induction H as [|x y l1 l2 Hxy _ IH]; intros l3 H3.
  - by inversion H3.
  - inversion H3 as [|? z ? l3' Hyz Hrest]; subst. constructor.
    + by eapply trimmed_trans.
    + by apply IH.
Qed.

Lemma checked_trans s1 s2 s3 : checked s1 s2 → checked s2 s3 → checked s1 s3.
Proof.
  intros (?&?&?&?) (?&?&?&?). repeat split; [congruence..|].
  by eapply Forall2_trimmed_trans.
Qed.

Lemma checked_sameShape s s' : checked s s' → sameShape s s'.
Proof.
  intros (Hn & Hc & _ & Hf). repeat split; [done..|].
  induction Hf as [|x y l l' (Hid & _) _ IH]; [done|].
  rewrite !fmap_cons. by rewrite Hid, IH.
Qed.

Lemma checked_worldAfterCheck rules k current indexer w :
  Service.indexers (self w) !! k = Some current →
  checked (self w) (self (worldAfterCheck rules k current indexer w)).
Proof.
  intros Hk. repeat split. simpl.
  apply Forall2_alter_r.
  - apply Forall_Forall2_diag, Forall_forall. intros x _. apply trimmed_refl.
  - intros x y Hx Hy _. rewrite Hx in Hy. injection Hy as <-.
    rewrite Hk in Hx. injection Hx as <-.
    repeat split. simpl. unfold reversedCategories.
    rewrite undoIndexerSpecificConfiguration_split. apply sublist_splices.
Qed.

Section DifferTrace.

Variable compare : Indexer.t -> JackettIndexer.t -> bool.
Variable rules : list IndexSpecificRule.t.
Variable jackettIndexers : list JackettIndexer.t.

Lemma addEntry_trace (id : Z) w :
  id ∈ idList jackettIndexers →
  ∃ r lines,
    addEntry rules jackettIndexers id w
    = Some (r, {| self := self w; console := console w ++ lines;
                  sent := sent w |})
    ∧ Forall (fun l => isSkipLine l = true) lines
    ∧ length (filterNotEmpty [r]) + length lines = 1.
Proof.
  intros [j Hj]%findJackett_is_Some.
  unfold addEntry, bind, getThis, deref. rewrite Hj.
  destruct (shouldAdd rules (self w) j).
  - exists (Some j), []. rewrite app_nil_r. destruct w.
    split; [done|]. split; [constructor | done].
  - eexists None, [_]. split; [reflexivity|]. split; [|done].
    by repeat constructor.
Qed.

Lemma filterNotEmpty_cons {A} (r : option A) (l : list (option A)) :
  filterNotEmpty (r :: l) = filterNotEmpty [r] ++ filterNotEmpty l.
Proof. unfold filterNotEmpty. by destruct r. Qed.

Lemma mapM_addEntry_trace (ids : list Z) w :
  (∀ id, id ∈ ids → id ∈ idList jackettIndexers) →
  ∃ res lines,
    mapM (addEntry rules jackettIndexers) ids w
    = Some (res, {| self := self w; console := console w ++ lines;
                    sent := sent w |})
    ∧ Forall (fun l => isSkipLine l = true) lines
    ∧ length (filterNotEmpty res) + length lines = length ids.
Proof.
  revert w. induction ids as [|id ids IH]; intros w Hids.
  - exists [], []. rewrite app_nil_r. destruct w.
    split; [done|]. split; [constructor | done].
  - destruct (addEntry_trace id w) as (r & l1 & Hrun & Hskip & Hlen).
    { apply Hids, elem_of_cons. by left. }
    destruct (IH {| self := self w; console := console w ++ l1;
                    sent := sent w |})
      as (res & l2 & Hrun2 & Hskip2 & Hlen2).
    { intros ??. apply Hids, elem_of_cons. by right. }
    exists (r :: res), (l1 ++ l2). cbn [mapM]. unfold bind at 1. rewrite Hrun.
    unfold bind at 1. rewrite Hrun2. unfold ret. cbn -[filterNotEmpty].
    rewrite <- app_assoc. split; [done|]. split; [by apply Forall_app|].
    rewrite filterNotEmpty_cons, !length_app. lia.
Qed.

Lemma updateEntry_trace (id : Z) w j k x :
  findJackett jackettIndexers id = Some j →
  findExisting (Service.indexers (self w)) id = Some (k, x) →
  ∃ r w' lines,
    updateEntry compare rules jackettIndexers id w = Some (r, w')
    ∧ checked (self w) (self w') ∧ sent w' = sent w
    ∧ console w' = console w ++ lines
    ∧ Forall (fun l => isSkipLine l = true) lines
    ∧ length (filterNotEmpty [r]) + length lines = 1.
Proof.
  intros Hj Hx. pose proof (findExisting_Some _ _ _ _ Hx) as [Hk _].
  unfold updateEntry, bind at 1 2 3 4, getThis, deref. rewrite Hj, Hx. simpl.
  rewrite (shouldUpdate_run compare rules _ _ _ _ Hk).
  pose proof (checked_worldAfterCheck rules k x j w Hk) as Hchk.
  destruct (updateVerdict compare rules (self w) x j), (compare x j).
  - eexists _, _, []. split; [reflexivity|]. rewrite app_nil_r.
    split; [exact Hchk|]. split; [done|]. split; [done|].
    split; [constructor | done].
  - eexists _, _, []. split; [reflexivity|]. rewrite app_nil_r.
    split; [apply checked_refl|]. split; [done|]. split; [done|].
    split; [constructor | done].
  - eexists _, _, [_]. split; [reflexivity|].
    split; [exact Hchk|]. split; [done|]. split; [done|].
    split; [by repeat constructor | done].
  - eexists _, _, [_]. split; [reflexivity|].
    split; [apply checked_refl|]. split; [done|]. split; [done|].
    split; [by repeat constructor | done].
Qed.

Lemma mapM_updateEntry_trace (ids : list Z) w :
  (∀ id, id ∈ ids →
         id ∈ idList jackettIndexers ∧ id ∈ serviceIdList (self w)) →
  ∃ res w' lines,
    mapM (updateEntry compare rules jackettIndexers) ids w = Some (res, w')
    ∧ checked (self w) (self w') ∧ sent w' = sent w
    ∧ console w' = console w ++ lines
    ∧ Forall (fun l => isSkipLine l = true) lines
    ∧ length (filterNotEmpty res) + length lines = length ids.
Proof.
  revert w. induction ids as [|id ids IH]; intros w Hids.
  - exists [], w, []. rewrite app_nil_r. split; [done|].
    split; [apply checked_refl|]. split; [done|]. split; [done|].
    split; [constructor | done].
  - destruct (Hids id) as [Hsrc Hsvc]; [apply elem_of_cons; by left|].
    destruct (findJackett_is_Some _ _ Hsrc) as [j Hj].
    destruct (findExisting_is_Some _ _ Hsvc) as [[k x] Hx].
    destruct (updateEntry_trace id w j k x Hj Hx)
      as (r & w1 & l1 & Hrun & Hchk & Hsent & Hcons & Hskip & Hlen).
    destruct (IH w1)
      as (res & w2 & l2 & Hrun2 & Hchk2 & Hsent2 & Hcons2 & Hskip2 & Hlen2).
    { intros id' Hid'.
      destruct (Hids id') as [? ?]; [apply elem_of_cons; by right|].
      split; [done|].
      by rewrite (sameShape_serviceIdList _ _ (checked_sameShape _ _ Hchk)). }
    exists (r :: res), w2, (l1 ++ l2). cbn [mapM]. unfold bind at 1.
    rewrite Hrun.
    unfold bind at 1. rewrite Hrun2. unfold ret.
    split; [done|]. split; [by eapply checked_trans|].
    split; [congruence|]. split; [by rewrite Hcons2, Hcons, app_assoc|].
    split; [by apply Forall_app|].
    rewrite filterNotEmpty_cons, !length_app. cbn [length] in *. lia.
Qed.

Lemma length_diff_same this :
  length (diff jackettIndexers this) + length (same jackettIndexers this)
  = length jackettIndexers.
Proof.
  unfold diff, same, idList. rewrite <- (length_fmap JackettIndexer.id).
  induction (JackettIndexer.id <$> jackettIndexers) as [|id l IH]; [done|].
  simpl. destruct (includes (serviceIdList this) id); simpl; lia.
Qed.

(** What [checkDifferences] does, whatever it is given. *)
Lemma checkDifferences_trace w :
  ∃ d w' skips,
    checkDifferences compare rules jackettIndexers w = Some (d, w')
    ∧ checked (self w) (self w') ∧ sent w' = sent w
    ∧ console w'
      = console w ++ skips
        ++ (NotInJackett (Service.serviceName (self w))
            <$> notInJackett jackettIndexers (self w))
    ∧ Forall (fun l => isSkipLine l = true) skips
    ∧ length (Differences.add d) + length (Differences.update d)
      + length skips
      = length jackettIndexers.
Proof.
  destruct (mapM_addEntry_trace (diff jackettIndexers (self w)) w)
    as (added & l1 & Hadd & Hskip1 & Hlen1).
  { intros id Hid. by apply diff_spec in Hid as [? _]. }
  destruct (mapM_updateEntry_trace (same jackettIndexers (self w))
              {| self := self w; console := console w ++ l1;
                 sent := sent w |})
    as (updated & w2 & l2 & Hupd & Hchk & Hsent & Hcons & Hskip2 & Hlen2).
  { intros id Hid. by apply same_spec. }
  eexists _, _, (l1 ++ l2). unfold checkDifferences, bind at 1, getThis.
  unfold bind at 1. rewrite Hadd. unfold bind at 1. simpl in Hupd.
  rewrite Hupd. unfold bind at 1. rewrite forEachM_log_run. unfold ret.
  split; [reflexivity|]. simpl. split; [done|]. split; [done|].
  split; [by rewrite Hcons; simpl; rewrite <- !app_assoc|].
  split; [by apply Forall_app|].
  pose proof (length_diff_same (self w)). rewrite length_app. lia.
Qed.

End DifferTrace.

(** X7: [checkDifferences] sends nothing and keeps the instance but for
    categories taken out of stored records: the name, the wanted
    categories and the seeds stay, as many records are held as before, and
    each keeps its id and its appId, and a sublist of its categories. *)
Theorem checkDifferences_keeps_records compare rules jackettIndexers w :
  ∃ d w',
    checkDifferences compare rules jackettIndexers w = Some (d, w')
    ∧ sent w' = sent w
    ∧ Service.serviceName (self w') = Service.serviceName (self w)
    ∧ Service.categories (self w') = Service.categories (self w)
    ∧ Service.seeds (self w') = Service.seeds (self w)
    ∧ length (Service.indexers (self w')) = length (Service.indexers (self w))
    ∧ ∀ k x', Service.indexers (self w') !! k = Some x' →
        ∃ x, Service.indexers (self w) !! k = Some x
             ∧ Indexer.id x' = Indexer.id x
             ∧ Indexer.appId x' = Indexer.appId x
             ∧ Indexer.categories x' `sublist_of` Indexer.categories x.
Proof.
  destruct (checkDifferences_trace compare rules jackettIndexers w)
    as (d & w' & skips & Hrun & (Hn & Hc & Hs & Hf) & Hsent & _).
  exists d, w'. split; [done|]. split; [done|]. split; [done|].
  split; [done|]. split; [done|].
  split; [symmetry; by eapply Forall2_length|].
  intros k x' Hx'. destruct (Forall2_lookup_r _ _ _ _ _ Hf Hx')
    as (x & Hx & Hid & Happ & Hsub).
  by exists x.
Qed.

(** X8: the console of [checkDifferences].  It prints debug lines for the
    entries it skips and then one warning for each id the consumer holds
    and the source does not, in the order of the consumer; and every
    indexer of the source is in the add list, in the update list, or
    skipped with one debug line. *)
Theorem checkDifferences_accounts compare rules jackettIndexers w :
  ∃ d w' skips,
    checkDifferences compare rules jackettIndexers w = Some (d, w')
    ∧ console w'
      = console w ++ skips
        ++ (NotInJackett (Service.serviceName (self w))
            <$> List.filter
                  (fun id => negb (includes (idList jackettIndexers) id))
                  (serviceIdList (self w)))
    ∧ Forall (fun l => (∃ service id, l = SkippingAdd service id)
                       ∨ (∃ service id, l = SkippingUpdate service id))
             skips
    ∧ length (Differences.add d) + length (Differences.update d)
      + length skips
      = length jackettIndexers.
Proof.
  destruct (checkDifferences_trace compare rules jackettIndexers w)
    as (d & w' & skips & Hrun & _ & _ & Hcons & Hskip & Hlen).
  exists d, w', skips. split; [done|]. split; [done|]. split; [|done].
  eapply Forall_impl; [exact Hskip|].
  intros [] Hl; try discriminate Hl; eauto.
Qed.

(** X9: whatever the source holds, also with repeated ids: every entry of
    the add list is an indexer of the source that [shouldAdd] accepts and
    whose id the consumer does not hold, every entry of the update list is
    an indexer of the source whose id the consumer holds, and no id is in
    both lists. *)
Theorem checkDifferences_sound compare rules jackettIndexers w :
  ∃ d w',
    checkDifferences compare rules jackettIndexers w = Some (d, w')
    ∧ (∀ j, j ∈ Differences.add d →
         j ∈ jackettIndexers
         ∧ (JackettIndexer.id j ∉ serviceIdList (self w))
         ∧ shouldAdd rules (self w) j = true)
    ∧ (∀ j, j ∈ Differences.update d →
         j ∈ jackettIndexers ∧ JackettIndexer.id j ∈ serviceIdList (self w))
    ∧ (∀ a u, a ∈ Differences.add d → u ∈ Differences.update d →
         JackettIndexer.id a ≠ JackettIndexer.id u).
Proof.
  destruct (checkDifferences_total compare rules jackettIndexers w)
    as (d & w' & Hrun & _ & _ & Hadd & Hupd & _).
  assert (∀ j, j ∈ Differences.add d →
            j ∈ jackettIndexers
            ∧ (JackettIndexer.id j ∉ serviceIdList (self w))
            ∧ shouldAdd rules (self w) j = true) as Ha.
  { intros j. rewrite Hadd, elem_of_filterNotEmpty, list_elem_of_fmap.
    intros (id & Hc & [_ Hid]%diff_spec). unfold addChoice in Hc.
    destruct (findJackett jackettIndexers id) as [j'|] eqn:Hj; [|done].
    destruct (shouldAdd rules (self w) j') eqn:Hs; [|done].
    injection Hc as ->. by apply findJackett_Some in Hj as [? <-]. }
  assert (∀ j, j ∈ Differences.update d →
            j ∈ jackettIndexers
            ∧ JackettIndexer.id j ∈ serviceIdList (self w)) as Hu.
  { intros j Hj. apply Hupd in Hj as [? [_ ?]%same_spec]. done. }
  exists d, w'. split; [done|]. split; [done|]. split; [done|].
  intros a u [_ [Hout _]]%Ha [_ Hin]%Hu Heq. apply Hout. by rewrite Heq.
Qed.

Lemma choices_sublist (l sub : list JackettIndexer.t) (p : Z → bool)
    (choice : Z → option JackettIndexer.t) :
  (∀ id r, choice id = Some r → findJackett l id = Some r) →
  (∀ j, j ∈ sub → findJackett l (JackettIndexer.id j) = Some j) →
  filterNotEmpty (choice <$> List.filter p (JackettIndexer.id <$> sub))
  `sublist_of` sub.
Proof.
  intros Hchoice. induction sub as [|j sub IH]; intros Hsub; [done|].
  assert (filterNotEmpty (choice <$> List.filter p (JackettIndexer.id <$> sub))
          `sublist_of` sub) as IH'.
  { apply IH. intros j' Hj'. apply Hsub, elem_of_cons. by right. }
  rewrite fmap_cons. simpl. destruct (p (JackettIndexer.id j)).
  - rewrite fmap_cons, filterNotEmpty_cons.
    destruct (choice (JackettIndexer.id j)) as [r|] eqn:Hc.
    + apply Hchoice in Hc. rewrite Hsub in Hc by (apply elem_of_cons; by left).
      injection Hc as <-. simpl. by apply sublist_skip.
    + simpl. by apply sublist_cons.
  - by apply sublist_cons.
Qed.

(** X10: on a source catalog (ids unique within one fetch) both lists keep
    the order of the catalog: each is a sublist of it. *)
Theorem checkDifferences_keeps_order compare rules jackettIndexers w :
  NoDup (idList jackettIndexers) →
  ∃ d w',
    checkDifferences compare rules jackettIndexers w = Some (d, w')
    ∧ Differences.add d `sublist_of` jackettIndexers
    ∧ Differences.update d `sublist_of` jackettIndexers.
Proof.
  intros Hnd.
  destruct (checkDifferences_exact compare rules jackettIndexers w Hnd)
    as (d & w' & Hrun & Hadd & Hupd).
  exists d, w'. split; [done|]. rewrite Hadd, Hupd. split.
  - apply (choices_sublist jackettIndexers jackettIndexers
             (fun id => negb (includes (serviceIdList (self w)) id))).
    + intros id r Hc. unfold addChoice in Hc.
      destruct (findJackett jackettIndexers id) as [j'|]; [|done].
      destruct (shouldAdd rules (self w) j'); [|done]. by injection Hc as ->.
    + intros j Hj. by apply findJackett_unique.
  - apply (choices_sublist jackettIndexers jackettIndexers
             (fun id => includes (serviceIdList (self w)) id)).
    + intros id r Hc. unfold updateChoice in Hc.
      destruct (findJackett jackettIndexers id) as [j'|]; [|done].
      destruct (findExisting (Service.indexers (self w)) id) as [e|]; [|done].
      destruct (updateVerdict compare rules (self w) e.2 j'); [|done].
      by injection Hc as ->.
    + intros j Hj. by apply findJackett_unique.
Qed.

Lemma checkDifferences_keeps_order_witness :
  ∃ d w',
    checkDifferences Scenario.compareEqual []
      [Scenario.jackett1 [2000%Z];
       {| JackettIndexer.id := 2; JackettIndexer.categories := [2000%Z] |}]
      (Scenario.world (Scenario.sonarr []))
    = Some (d, w')
    ∧ Differences.add d
      `sublist_of`
      [Scenario.jackett1 [2000%Z];
       {| JackettIndexer.id := 2; JackettIndexer.categories := [2000%Z] |}]
    ∧ Differences.update d
      `sublist_of`
      [Scenario.jackett1 [2000%Z];
       {| JackettIndexer.id := 2; JackettIndexer.categories := [2000%Z] |}].
Proof.
  apply checkDifferences_keeps_order. vm_compute.
  apply NoDup_cons. split; [|apply NoDup_singleton].
  intros [=]%list_elem_of_singleton.
Defined.

Lemma filter_all_true (f : Z → bool) (l : list Z) :
  (∀ x, f x = true) → List.filter f l = l.
Proof.
  intros Hf. induction l as [|x l IH]; [done|]. simpl. by rewrite Hf, IH.
Qed.

(** X11: with an empty source catalog [checkDifferences] returns two empty
    lists, leaves the instance as it is and warns about every id the
    consumer holds; and [sync] then sends no request. *)
Theorem empty_catalog compare rules net w :
  checkDifferences compare rules [] w
  = Some ({| Differences.add := []; Differences.update := [] |},
          {| self := self w;
             console := console w
                        ++ (NotInJackett (Service.serviceName (self w))
                            <$> serviceIdList (self w));
             sent := sent w |})
  ∧ sync compare rules net [] w
    = (Resolved [],
       {| self := self w;
          console := console w
                     ++ (NotInJackett (Service.serviceName (self w))
                         <$> serviceIdList (self w));
          sent := sent w |}).
Proof.
  assert (checkDifferences compare rules [] w
          = Some ({| Differences.add := []; Differences.update := [] |},
                  {| self := self w;
                     console := console w
                       ++ (NotInJackett (Service.serviceName (self w))
                           <$> serviceIdList (self w));
                     sent := sent w |})) as Hrun.
  { unfold checkDifferences, bind, getThis. simpl.
    rewrite forEachM_log_run. unfold ret, notInJackett. simpl.
    by rewrite filter_all_true. }
  split; [done|]. unfold sync, await, liftM. by rewrite Hrun.
Qed.

Lemma mapM_addEntry_skips rules jackettIndexers (ids : list Z) w :
  (∀ id, id ∈ ids → id ∈ idList jackettIndexers) →
  ∃ res lines,
    mapM (addEntry rules jackettIndexers) ids w
    = Some (res, {| self := self w; console := console w ++ lines;
                    sent := sent w |})
    ∧ Forall (fun l => ∃ id, id ∈ ids
                             ∧ l = SkippingAdd (Service.serviceName (self w)) id)
             lines
    ∧ length (filterNotEmpty res) + length lines = length ids.
Proof.
  revert w. induction ids as [|id ids IH]; intros w Hids.
  - exists [], []. rewrite app_nil_r. destruct w.
    split; [done|]. split; [constructor | done].
  - destruct (findJackett_is_Some jackettIndexers id) as [j Hj].
    { apply Hids, elem_of_cons. by left. }
    pose proof (findJackett_Some _ _ _ Hj) as [_ Hid].
    assert (addEntry rules jackettIndexers id w
            = Some (if shouldAdd rules (self w) j then Some j else None,
                    if shouldAdd rules (self w) j then w
                    else {| self := self w;
                            console := console w
                              ++ [SkippingAdd (Service.serviceName (self w))
                                              id];
                            sent := sent w |})) as Hadd.
    { unfold addEntry, bind, getThis, deref. rewrite Hj, Hid.
      by destruct (shouldAdd rules (self w) j). }
    cbn [mapM]. unfold bind at 1. rewrite Hadd.
    destruct (shouldAdd rules (self w) j).
    + destruct (IH w) as (res & lines & Hrun & Hskip & Hlen).
      { intros ??. apply Hids, elem_of_cons. by right. }
      exists (Some j :: res), lines. unfold bind at 1.
      rewrite Hrun. unfold ret. split; [done|]. split.
      * eapply Forall_impl; [exact Hskip|]. intros l (id' & ? & ->).
        exists id'. split; [apply elem_of_cons; by right | done].
      * rewrite filterNotEmpty_cons, length_app. simpl. lia.
    + destruct (IH {| self := self w;
                      console := console w
                        ++ [SkippingAdd (Service.serviceName (self w)) id];
                      sent := sent w |})
        as (res & lines & Hrun & Hskip & Hlen).
      { intros ??. apply Hids, elem_of_cons. by right. }
      exists (None :: res),
        (SkippingAdd (Service.serviceName (self w)) id :: lines).
      unfold bind at 1. rewrite Hrun.
      unfold ret. cbn [self console sent]. rewrite <- app_assoc.
      split; [done|]. split.
      * constructor; [exists id; split; [apply elem_of_cons; by left | done]|].
        eapply Forall_impl; [exact Hskip|]. intros l (id' & ? & ->).
        exists id'. split; [apply elem_of_cons; by right | done].
      * rewrite filterNotEmpty_cons, length_app. simpl in *. lia.
Qed.

(** X12: a consumer that holds no indexer gets an empty update list and
    stays as it is; all that is printed are debug lines for skipped entries
    of the add list, each with an id of the source, and no warning; and
    every indexer of the source is in the add list or skipped with one
    such line. *)
Theorem empty_consumer compare rules jackettIndexers w :
  Service.indexers (self w) = [] →
  ∃ d skips,
    checkDifferences compare rules jackettIndexers w
    = Some (d, {| self := self w; console := console w ++ skips;
                  sent := sent w |})
    ∧ Differences.update d = []
    ∧ Forall (fun l => ∃ id, id ∈ idList jackettIndexers
                             ∧ l = SkippingAdd (Service.serviceName (self w)) id)
             skips
    ∧ length (Differences.add d) + length skips = length jackettIndexers.
Proof.
  intros Hnone.
  assert (serviceIdList (self w) = []) as Hids.
  { unfold serviceIdList. by rewrite Hnone. }
  assert (same jackettIndexers (self w) = []) as Hsame.
  { unfold same. rewrite Hids.
    induction (idList jackettIndexers) as [|id l IH]; [done|]. done. }
  assert (notInJackett jackettIndexers (self w) = []) as Horphans.
  { unfold notInJackett. by rewrite Hids. }
  destruct (mapM_addEntry_skips rules jackettIndexers
              (diff jackettIndexers (self w)) w)
    as (res & skips & Hrun & Hskip & Hlen).
  { intros id Hid. by apply diff_spec in Hid as [? _]. }
  eexists _, skips. unfold checkDifferences, bind at 1, getThis.
  unfold bind at 1. rewrite Hrun. rewrite Hsame, Horphans.
  cbn [mapM forEachM]. unfold bind, ret. cbn [self console sent].
  split; [reflexivity|]. split; [reflexivity|]. split.
  - eapply Forall_impl; [exact Hskip|]. intros l (id & Hid & ->).
    exists id. split; [|done]. by apply diff_spec in Hid as [? _].
  - cbn [Differences.add].
    pose proof (length_diff_same jackettIndexers (self w)) as Hl.
    rewrite Hsame in Hl. simpl in Hl. lia.
Qed.

Lemma empty_consumer_witness :
  ∃ d skips,
    checkDifferences Scenario.compareEqual [] [Scenario.jackett1 [3000%Z]]
      (Scenario.world (Scenario.sonarr []))
    = Some (d, {| self := Scenario.sonarr []; console := [] ++ skips;
                  sent := [] |})
    ∧ Differences.update d = []
    ∧ Forall (fun l => ∃ id, id ∈ idList [Scenario.jackett1 [3000%Z]]
                             ∧ l = SkippingAdd SONARR id)
             skips
    ∧ length (Differences.add d) + length skips = 1.
Proof.
  apply (empty_consumer Scenario.compareEqual [] [Scenario.jackett1 [3000%Z]]
           (Scenario.world (Scenario.sonarr []))).
  reflexivity.
Defined.

(** ** The requests, the fetch of the consumer's indexers, the driver *)


(** X19: the two batches of [sync].  Every request of both lists is sent,
    whatever the application answers to the others.  What [sync] adds to
    the console are the lines of the replies, one for each request but for
    those answered with an HTTP error whose body is [null], which get none:
    a success line only for a reply that resolved with data, the error line
    with the status for another HTTP error, the line of an unexpected error
    for any other failure.  The promise of [sync] is rejected exactly when
    one of the replies is an HTTP error whose body is [null].  (The lines
    are given up to their order, which in a run is that of the arrival of
    the replies.) *)
Theorem sync_batches compare rules net jackettIndexers w :
  ∃ d w1 puts out w' lines,
    checkDifferences compare rules jackettIndexers w = Some (d, w1)
    ∧ Forall2 (putOf (Service.indexers (self w1))) (Differences.update d) puts
    ∧ sync compare rules net jackettIndexers w = (out, w')
    ∧ self w' = self w1
    ∧ sent w' = sent w ++ (Post <$> Differences.add d) ++ puts
    ∧ console w' = console w1 ++ lines
    ∧ lines ≡ₚ omap (fun r => entryLine (Service.serviceName (self w1))
                                        (requestReply net r))
                    ((Post <$> Differences.add d) ++ puts)
    ∧ out = (if existsb (fun r => handlerThrows (requestReply net r))
                        ((Post <$> Differences.add d) ++ puts)
             then Rejected OtherError
             else Resolved (replicate (length (Differences.update d)) tt))
    ∧ (∀ reply,
         handlerThrows reply = true ↔
         ∃ code, reply = Rejected (HttpErrorNullBody code))
    ∧ (∀ service reply,
         entryLine service reply
         = match reply with
           | Resolved response =>
               if hasData response then
                 if (status response =? 201)%Z
                 then Some (AddedSuccessfully service)
                 else if (status response =? 202)%Z
                      then Some (UpdatedSuccessfully service)
                      else Some (UnknownResponseStatus service)
               else Some (UnexpectedErrorDuringRequest service)
           | Rejected (HttpError code) =>
               Some (SomethingWentWrong service code)
           | Rejected (HttpErrorNullBody _) => None
           | Rejected OtherError => Some (UnexpectedErrorDuringRequest service)
           end).
Proof.
  destruct (sync_run compare rules net jackettIndexers w)
    as (d & w1 & puts & Hrun & Hputs & Hsync).
  eexists d, w1, puts, _, _, _. split; [done|]. split; [done|].
  split; [exact Hsync|]. cbn [self sent console].
  split; [done|]. split; [done|]. split; [done|]. split; [done|].
  split; [done|]. split.
  - intros reply. unfold handlerThrows. split.
    + destruct reply as [?|[]]; try done. by eexists.
    + by intros [code ->].
  - intros service [response|[]]; try done. simpl.
    by destruct (hasData response).
Qed.

Lemma mapM_mapToIndexerWithCatch_run (entries : list (option Indexer.t)) w :
  mapM mapToIndexerWithCatch entries w
  = Some (entries,
          {| self := self w;
             console := console w
               ++ replicate
                    (length (List.filter (fun e => bool_decide (e = None))
                                         entries))
                    (CouldNotBeParsed (Service.serviceName (self w)));
             sent := sent w |}).
Proof.
  revert w. induction entries as [|e entries IH]; intros w.
  - simpl. unfold ret. rewrite app_nil_r. by destruct w.
  - cbn [mapM]. unfold bind at 1. destruct e as [x|].
    + unfold mapToIndexerWithCatch, ret at 1. unfold bind at 1.
      rewrite IH. unfold ret. simpl. done.
    + unfold mapToIndexerWithCatch, bind at 1 2, getThis, log, ret at 1.
      unfold bind at 1. rewrite IH. unfold ret. simpl.
      by rewrite <- app_assoc.
Qed.

Lemma ids_of_defined (l : list Indexer.t) :
  (∀ x, x ∈ l → Indexer.id x ≠ None) →
  Indexer.id <$> l = Some <$> filterNotEmpty (Indexer.id <$> l).
Proof.
  induction l as [|x l IH]; intros Hl; [done|].
  rewrite !fmap_cons, filterNotEmpty_cons, fmap_app.
  rewrite <- IH by (intros y Hy; apply Hl, elem_of_cons; by right).
  destruct (Indexer.id x) as [i|] eqn:Hid; [done|].
  destruct (Hl x); [apply elem_of_cons; by left | done].
Qed.

Lemma getIndexers_run net w entries :
  indexerReply net = Resolved entries →
  getIndexers net w
  = (Resolved tt,
     {| self := Service.withIndexers (self w)
          (List.filter (fun indexer => bool_decide (Indexer.id indexer ≠ None))
                       (filterNotEmpty entries));
        console := console w
          ++ replicate
               (length (List.filter (fun e => bool_decide (e = None)) entries))
               (CouldNotBeParsed (Service.serviceName (self w)));
        sent := sent w |}).
Proof.
  intros Hreply.
  unfold getIndexers, handleIndexersRequest, await at 1, tryCatch.
  unfold await at 1. rewrite Hreply. unfold await at 1, liftM at 1.
  by rewrite mapM_mapToIndexerWithCatch_run.
Qed.

(** X14: when the indexer url answers, [getIndexers] resolves and assigns
    [this.indexers]: the indexers the entries were mapped to, in the order
    of the answer, without those whose mapping threw (one warning each) and
    those without an id; so every record the consumer then holds has an
    id. *)
Theorem getIndexers_success net w entries :
  indexerReply net = Resolved entries →
  ∃ indexers,
    getIndexers net w
    = (Resolved tt,
       {| self := Service.withIndexers (self w) indexers;
          console := console w
            ++ replicate
                 (length (List.filter (fun e => bool_decide (e = None))
                                      entries))
                 (CouldNotBeParsed (Service.serviceName (self w)));
          sent := sent w |})
    ∧ (∀ x, x ∈ indexers ↔ Some x ∈ entries ∧ Indexer.id x ≠ None)
    ∧ indexers `sublist_of` filterNotEmpty entries
    ∧ Indexer.id <$> indexers
      = Some <$> serviceIdList (Service.withIndexers (self w) indexers).
Proof.
  intros Hreply.
  exists (List.filter (fun indexer => bool_decide (Indexer.id indexer ≠ None))
                      (filterNotEmpty entries)).
  split; [|split; [|split]].
  - by apply getIndexers_run.
  - intros x.
    rewrite list_elem_of_In, filter_In, <- list_elem_of_In,
      elem_of_filterNotEmpty, bool_decide_eq_true. done.
  - induction (filterNotEmpty entries) as [|x l IH]; [done|]. simpl.
    destruct (bool_decide (Indexer.id x ≠ None));
      [by apply sublist_skip | by apply sublist_cons].
  - unfold serviceIdList. simpl. apply ids_of_defined.
    intros x [_ Hx]%list_elem_of_In%filter_In.
    by apply bool_decide_eq_true in Hx.
Qed.

Lemma getIndexers_success_witness :
  ∃ indexers,
    getIndexers
      {| systemReply := Rejected OtherError;
         indexerReply :=
           Resolved [Some (Scenario.existing 1 7 [2000%Z]); None;
                     Some {| Indexer.id := None; Indexer.appId := Some 8%Z;
                             Indexer.categories := [] |}];
         requestReply := fun _ => Rejected OtherError |}
      (Scenario.world (Scenario.sonarr []))
    = (Resolved tt,
       {| self := Service.withIndexers (Scenario.sonarr []) indexers;
          console := [CouldNotBeParsed SONARR]; sent := [] |})
    ∧ indexers = [Scenario.existing 1 7 [2000%Z]].
Proof.
  destruct (getIndexers_success
              {| systemReply := Rejected OtherError;
                 indexerReply :=
                   Resolved [Some (Scenario.existing 1 7 [2000%Z]); None;
                             Some {| Indexer.id := None;
                                     Indexer.appId := Some 8%Z;
                                     Indexer.categories := [] |}];
                 requestReply := fun _ => Rejected OtherError |}
              (Scenario.world (Scenario.sonarr [])) _ eq_refl)
    as (indexers & Hrun & _).
  exists indexers. split; [exact Hrun|].
  vm_compute in Hrun. by injection Hrun as <-.
Defined.

(** X15: when the indexer url does not answer, [getIndexers] prints one
    line, rejects with the very error of the request, and [this.indexers]
    keeps the value it had. *)
Theorem getIndexers_failure net w error :
  indexerReply net = Rejected error →
  getIndexers net w
  = (Rejected error,
     {| self := self w;
        console := console w
          ++ [match error with
              | HttpError status | HttpErrorNullBody status =>
                  CouldntGetIndexes (Service.serviceName (self w)) status
              | OtherError =>
                  UnexpectedErrorDuringRequest (Service.serviceName (self w))
              end];
        sent := sent w |}).
Proof.
  intros H. unfold getIndexers, handleIndexersRequest, await, tryCatch.
  rewrite H. reflexivity.
Qed.

Lemma getIndexers_failure_witness :
  getIndexers Scenario.unreachable
    (Scenario.world (Scenario.sonarr [Scenario.existing 1 7 [2000%Z]]))
  = (Rejected OtherError,
     {| self := Scenario.sonarr [Scenario.existing 1 7 [2000%Z]];
        console := [UnexpectedErrorDuringRequest SONARR]; sent := [] |}).
Proof.
  apply (getIndexers_failure Scenario.unreachable
           (Scenario.world (Scenario.sonarr [Scenario.existing 1 7 [2000%Z]]))
           OtherError).
  reflexivity.
Defined.

Lemma existsb_requestReply (f : Request → bool) (l : list Request) :
  existsb f l = false ↔ ∀ r, r ∈ l → f r = false.
Proof.
  rewrite <- not_true_iff_false, existsb_exists. split.
  - intros Hn r Hr. apply not_true_iff_false. intros Hf. apply Hn.
    exists r. split; [by apply list_elem_of_In | done].
  - intros Hall (r & Hr%list_elem_of_In & Hf). rewrite (Hall r Hr) in Hf. done.
Qed.

(** A service that can be reached: how [sync(service, jackettIndexers)]
    runs.  Its last line tells whether the [catch] handler of
    [handleRequest] threw on one of the replies. *)
Lemma Main_sync_reachable compare rules net jackettIndexers service
    response entries :
  systemReply net = Resolved response → hasData response = true →
  indexerReply net = Resolved entries →
  ∃ indexers n d w1 puts,
    checkDifferences compare rules jackettIndexers
      {| self := Service.withIndexers service indexers;
         console := ([TestedUrlAndApiKey (Service.serviceName service)]
                     ++ replicate n
                          (CouldNotBeParsed (Service.serviceName service)))
                    ++ [StartingSync (Service.serviceName service)];
         sent := [] |}
    = Some (d, w1)
    ∧ Main.sync compare rules net jackettIndexers (Main.fresh service)
      = (Resolved tt,
         {| self := self w1;
            console :=
              (console w1
               ++ omap (fun r => entryLine (Service.serviceName service)
                                           (requestReply net r))
                       ((Post <$> Differences.add d) ++ puts))
              ++ [if existsb (fun r => handlerThrows (requestReply net r))
                             ((Post <$> Differences.add d) ++ puts)
                  then Failed (Service.serviceName service)
                  else SyncIsDone (Service.serviceName service)];
            sent := (Post <$> Differences.add d) ++ puts |}).
Proof.
  intros Hsys Hdata Hix.
  pose proof (getIndexers_run net
                {| self := service;
                   console :=
                     [TestedUrlAndApiKey (Service.serviceName service)];
                   sent := [] |} entries Hix) as Hget.
  set (indexers :=
         List.filter (fun indexer => bool_decide (Indexer.id indexer ≠ None))
                     (filterNotEmpty entries)) in *.
  destruct (sync_run compare rules net jackettIndexers
              {| self := Service.withIndexers service indexers;
                 console :=
                   ([TestedUrlAndApiKey (Service.serviceName service)]
                    ++ replicate
                         (length (List.filter
                                    (fun e => bool_decide (e = None)) entries))
                         (CouldNotBeParsed (Service.serviceName service)))
                   ++ [StartingSync (Service.serviceName service)];
                 sent := [] |})
    as (d & w1 & puts & Hrun & _ & Hsync).
  assert (Service.serviceName (self w1) = Service.serviceName service) as Hn.
  { match type of Hrun with
    | checkDifferences _ _ _ ?w0 = _ =>
        destruct (checkDifferences_total compare rules jackettIndexers w0)
          as (d' & w1' & Hrun' & (Hname & _) & _)
    end.
    rewrite Hrun in Hrun'. by injection Hrun' as <- <-. }
  rewrite Hn in Hsync.
  eexists indexers, _, d, w1, puts. split; [exact Hrun|].
  unfold Main.sync, tryCatch, await at 1, validate. rewrite Hsys.
  unfold await at 1, liftM at 1, getThis. unfold await at 1. rewrite Hdata.
  unfold liftM at 1, log at 1. cbn [self console sent Main.fresh app].
  unfold await at 1. cbn [app] in Hget. rewrite Hget.
  unfold await at 1, liftM at 1, log at 1. cbn [self console sent].
  unfold await at 1. cbn [app] in Hsync. cbn [app]. rewrite Hsync.
  destruct (existsb _ _); [|reflexivity].
  unfold await, liftM, getThis, log. cbn [self console sent].
  by rewrite Hn.
Qed.

Lemma entryLine_no_verdict service (l : list Request)
    (reply : Request → Outcome Response) :
  Forall (fun l => isVerdict l = false)
         (omap (fun r => entryLine service (reply r)) l).
Proof.
  apply Forall_forall. intros line (r & _ & Hline)%list_elem_of_omap.
  unfold entryLine in Hline.
  destruct (reply r) as [resp|[code|code|]];
    [|by injection Hline as <-|done|by injection Hline as <-].
  destruct (negb (hasData resp)); [by injection Hline as <-|].
  destruct (status resp =? 201)%Z; [by injection Hline as <-|].
  destruct (status resp =? 202)%Z; by injection Hline as <-.
Qed.

(** X16: for a service whose system url and indexer url answer, [sync] of
    [main.ts] resolves and prints the line of the validation first.  When
    the application answers none of the requests sent with an HTTP error
    whose body is [null] (it may reject them all otherwise), the last line
    is "Sync is done" and neither that line nor the line of a failed sync
    comes before.  As soon as one request sent is answered with such an
    error, the line of a failed sync is printed and "Sync is done" is
    not. *)
Theorem reachable_service_is_done compare rules net jackettIndexers service
    response entries :
  systemReply net = Resolved response → hasData response = true →
  indexerReply net = Resolved entries →
  ∃ w',
    Main.sync compare rules net jackettIndexers (Main.fresh service)
    = (Resolved tt, w')
    ∧ head (console w')
      = Some (TestedUrlAndApiKey (Service.serviceName service))
    ∧ ((∀ r code, r ∈ sent w' →
          requestReply net r ≠ Rejected (HttpErrorNullBody code)) →
       ∃ lines,
         console w'
         = TestedUrlAndApiKey (Service.serviceName service)
           :: lines ++ [SyncIsDone (Service.serviceName service)]
         ∧ Forall (fun l => isVerdict l = false) lines)
    ∧ ((∃ r code, r ∈ sent w'
          ∧ requestReply net r = Rejected (HttpErrorNullBody code)) →
       Failed (Service.serviceName service) ∈ console w'
       ∧ SyncIsDone (Service.serviceName service) ∉ console w').
Proof.
  intros Hsys Hdata Hix.
  destruct (Main_sync_reachable compare rules net jackettIndexers service
              response entries Hsys Hdata Hix)
    as (indexers & n & d & w1 & puts & Hrun & Hsync).
  match type of Hrun with
  | checkDifferences _ _ _ ?w0 = _ =>
      destruct (checkDifferences_trace compare rules jackettIndexers w0)
        as (d' & w1' & skips & Hrun' & _ & _ & Hcons & Hskips & _)
  end.
  rewrite Hrun in Hrun'. injection Hrun' as <- <-.
  cbn [console self] in Hcons.
  set (name := Service.serviceName service) in *.
  set (requests := (Post <$> Differences.add d) ++ puts) in *.
  set (lines :=
         replicate n (CouldNotBeParsed name) ++ [StartingSync name] ++ skips
         ++ (NotInJackett name
             <$> notInJackett jackettIndexers
                   (Service.withIndexers service indexers))
         ++ omap (fun r => entryLine name (requestReply net r)) requests).
  assert (Forall (fun l => isVerdict l = false) lines) as Hlines.
  { unfold lines. repeat apply Forall_app_2.
    - by apply Forall_replicate.
    - by repeat constructor.
    - eapply Forall_impl; [exact Hskips|]. by intros [].
    - apply Forall_forall. by intros l (id & -> & _)%list_elem_of_fmap.
    - apply entryLine_no_verdict. }
  assert (∀ verdict,
            (console w1
             ++ omap (fun r => entryLine name (requestReply net r)) requests)
            ++ [verdict]
            = TestedUrlAndApiKey name :: lines ++ [verdict]) as Hshape.
  { intros verdict. rewrite Hcons. unfold lines.
    rewrite <- !app_assoc. cbn [app]. reflexivity. }
  rewrite Hshape in Hsync.
  eexists. split; [exact Hsync|]. cbn [console sent].
  split; [done|]. split.
  - intros Hnone. exists lines. split; [|done].
    assert (existsb (fun r => handlerThrows (requestReply net r)) requests
            = false) as ->; [|done].
    apply existsb_requestReply. intros r Hr. unfold handlerThrows.
    destruct (requestReply net r) as [?|[code|code|]] eqn:Hreply; try done.
    by destruct (Hnone r code Hr).
  - intros (r & code & Hr & Hreply).
    assert (existsb (fun r => handlerThrows (requestReply net r)) requests
            = true) as ->.
    { apply existsb_exists. exists r. split; [by apply list_elem_of_In|].
      by rewrite Hreply. }
    split.
    + apply elem_of_cons. right. apply elem_of_app. right.
      by apply list_elem_of_singleton.
    + intros [Heq|[Hin|Hin%list_elem_of_singleton]%elem_of_app]%elem_of_cons;
        [done| |done].
      rewrite Forall_forall in Hlines. by specialize (Hlines _ Hin).
Qed.

Lemma reachable_service_is_done_witness :
  ∃ w' lines,
    Main.sync Scenario.compareEqual []
      {| systemReply := Resolved {| status := 200; hasData := true |};
         indexerReply := Resolved [];
         requestReply := fun _ => Rejected (HttpError 400) |}
      [Scenario.jackett1 [2000%Z]] (Main.fresh (Scenario.sonarr []))
    = (Resolved tt, w')
    ∧ console w' = TestedUrlAndApiKey SONARR :: lines ++ [SyncIsDone SONARR].
Proof.
  destruct (reachable_service_is_done Scenario.compareEqual []
              {| systemReply := Resolved {| status := 200; hasData := true |};
                 indexerReply := Resolved [];
                 requestReply := fun _ => Rejected (HttpError 400) |}
              [Scenario.jackett1 [2000%Z]] (Scenario.sonarr [])
              {| status := 200; hasData := true |} []
              eq_refl eq_refl eq_refl)
    as (w' & Hrun & _ & Hdone & _).
  destruct Hdone as (lines & Hconsole & _).
  { intros r code _. discriminate. }
  by exists w', lines.
Defined.

Lemma Main_sync_no_data compare rules net jackettIndexers service response :
  systemReply net = Resolved response → hasData response = false →
  Main.sync compare rules net jackettIndexers (Main.fresh service)
  = (Resolved tt,
     {| self := service; console := [Failed (Service.serviceName service)];
        sent := [] |}).
Proof.
  intros Hsys Hdata. unfold Main.sync, tryCatch, await at 1, validate.
  rewrite Hsys. unfold await at 1, liftM at 1, getThis. unfold await at 1.
  rewrite Hdata. reflexivity.
Qed.

Lemma Main_sync_keeps_configuration compare rules net jackettIndexers
    service :
  let w' := (Main.sync compare rules net jackettIndexers
               (Main.fresh service)).2 in
  Service.serviceName (self w') = Service.serviceName service
  ∧ Service.categories (self w') = Service.categories service
  ∧ Service.seeds (self w') = Service.seeds service.
Proof.
  cbv zeta. destruct (systemReply net) as [response|error] eqn:Hsys.
  - destruct (hasData response) eqn:Hdata.
    + destruct (indexerReply net) as [entries|error] eqn:Hix.
      * destruct (Main_sync_reachable compare rules net jackettIndexers
                    service response entries Hsys Hdata Hix)
          as (indexers & n & d & w1 & puts & Hrun & ->).
        match type of Hrun with
        | checkDifferences _ _ _ ?w0 = _ =>
            destruct (checkDifferences_trace compare rules jackettIndexers w0)
              as (d' & w1' & skips & Hrun' & (Hn & Hc & Hs & _) & _)
        end.
        rewrite Hrun in Hrun'. injection Hrun' as <- <-. done.
      * destruct (Main_sync_unreachable compare rules net jackettIndexers
                    service error (or_intror Hix)) as [lines ->]. done.
    + by rewrite (Main_sync_no_data compare rules net jackettIndexers
                    service response Hsys Hdata).
  - destruct (Main_sync_unreachable compare rules net jackettIndexers
                service error (or_introl Hsys)) as [lines ->]. done.
Qed.

(** X17: when the source catalog was fetched, [start] ends with one world
    for each service, in the order of [services], and the name, the wanted
    categories and the seeds of each service are those it was constructed
    with. *)
Theorem start_keeps_services compare rules jackettIndexers services :
  ∃ worlds,
    Main.start compare rules (Resolved jackettIndexers) services
    = Main.Completed worlds
    ∧ Forall2 (fun (service : Service.t * Net) w' =>
                 Service.serviceName (self w') = Service.serviceName service.1
                 ∧ Service.categories (self w') = Service.categories service.1
                 ∧ Service.seeds (self w') = Service.seeds service.1)
              services worlds.
Proof.
  eexists. split.
  - unfold Main.start.
    assert (∀ l : list (Service.t * Net),
              promiseAll
                (map fst
                   (map (fun service : Service.t * Net =>
                           Main.syncCallback compare rules jackettIndexers
                             service.2 (Main.fresh service.1)) l))
              = Resolved (replicate (length l) tt)) as Hall.
    { induction l as [|s l IH]; [done|].
      simpl. rewrite Main_syncCallback_run. simpl. by rewrite IH. }
    rewrite Hall. reflexivity.
  - induction services as [|s l IH]; [constructor|].
    simpl. constructor; [|exact IH].
    rewrite Main_syncCallback_run. simpl.
    apply Main_sync_keeps_configuration.
Qed.

(** X20: what [main.ts] does with the failure of a consumer.  A rejected
    fetch of the source catalog ends the run with [process.exit(1)] before
    any service is touched.  Otherwise [start] runs to its end, the world
    of each service being that of its own [sync(service, jackettIndexers)],
    which resolves whatever happens in it; and a service whose system url
    or indexer url cannot be read prints the line of a failed sync last and
    sends nothing. *)
Theorem consumer_failures_are_contained compare rules :
  (∀ error services,
     Main.start compare rules (Rejected error) services
     = Main.ProcessExit 1 [JackettCouldntGetIndexers])
  ∧ (∀ jackettIndexers services,
       Main.start compare rules (Resolved jackettIndexers) services
       = Main.Completed
           ((fun service : Service.t * Net =>
               (Main.sync compare rules service.2 jackettIndexers
                          (Main.fresh service.1)).2) <$> services))
  ∧ (∀ net jackettIndexers w,
       ∃ w', Main.sync compare rules net jackettIndexers w = (Resolved tt, w'))
  ∧ (∀ net jackettIndexers service error,
       systemReply net = Rejected error ∨ indexerReply net = Rejected error →
       ∃ lines,
         Main.sync compare rules net jackettIndexers (Main.fresh service)
         = (Resolved tt,
            {| self := service;
               console := lines ++ [Failed (Service.serviceName service)];
               sent := [] |})).
Proof.
  split; [done|]. split; [|split].
  - intros jackettIndexers services. unfold Main.start.
    assert (∀ l : list (Service.t * Net),
              promiseAll
                (map fst
                   (map (fun service : Service.t * Net =>
                           Main.syncCallback compare rules jackettIndexers
                             service.2 (Main.fresh service.1)) l))
              = Resolved (replicate (length l) tt)) as Hall.
    { induction l as [|s l IH]; [done|].
      simpl. rewrite Main_syncCallback_run. simpl. by rewrite IH. }
    rewrite Hall. f_equal.
    induction services as [|s l IH]; [done|].
    simpl. rewrite Main_syncCallback_run. simpl. f_equal. apply IH.
  - intros. apply Main_sync_resolves.
  - intros. by eapply Main_sync_unreachable.
Qed.

Lemma consumer_failures_are_contained_witness :
  ∃ lines,
    Main.sync Scenario.compareEqual [] Scenario.unreachable
      [Scenario.jackett1 [2000%Z]] (Main.fresh (Scenario.sonarr []))
    = (Resolved tt,
       {| self := Scenario.sonarr [];
          console := lines ++ [Failed SONARR]; sent := [] |}).
Proof.
  destruct (consumer_failures_are_contained Scenario.compareEqual [])
    as (_ & _ & _ & Hunreachable).
  apply (Hunreachable Scenario.unreachable [Scenario.jackett1 [2000%Z]]
           (Scenario.sonarr []) OtherError).
  left. reflexivity.
Defined.
(** ** The configuration check *)

(** X18: [checkUrlAndApiKey] returns exactly when the url and the api key
    are both given and not empty; the url is looked at first, so the error
    about the api key is only thrown for a url that passes. *)
Theorem checkUrlAndApiKey_spec (url apiKey : option String.string) :
  (checkUrlAndApiKey url apiKey = inr tt ↔
   ∃ u a, url = Some u ∧ u ≠ String.EmptyString
          ∧ apiKey = Some a ∧ a ≠ String.EmptyString)
  ∧ (checkUrlAndApiKey url apiKey = inl NoUrlProvided ↔
     url = None ∨ url = Some String.EmptyString)
  ∧ (checkUrlAndApiKey url apiKey = inl NoApiKeyProvided ↔
     (∃ u, url = Some u ∧ u ≠ String.EmptyString)
     ∧ (apiKey = None ∨ apiKey = Some String.EmptyString)).
Proof.
  unfold checkUrlAndApiKey.
  destruct url as [u|];
    [destruct (String.eqb_spec u String.EmptyString) as [->|Hu];
     [|destruct apiKey as [a|];
       [destruct (String.eqb_spec a String.EmptyString) as [->|Ha]|]]|];
    split_and!; split; intros H;
    repeat match goal with
      | H : ∃ _, _ |- _ => destruct H
      | H : _ ∧ _ |- _ => destruct H
      | H : _ ∨ _ |- _ => destruct H
      end;
    simplify_eq; eauto 10.
Qed.
